(** * The agent-side BGP control plane controller (pkg/bgpv1/agent/controller.go)

    A shallow embedding of the controller: the Signaler and its one-slot
    channel, policy selection, one reconciliation attempt, the control loop
    and the constructor.  Collaborators whose code lives in other packages
    (label selectors, the annotation parser, the router manager, the
    listers) enter as interfaces, the way the Go code sees them. *)

From Stdlib Require Import ZArith.
From stdpp Require Import base option list strings gmap.

Open Scope string_scope.
Open Scope list_scope.
Open Scope nat_scope.

(** ** Go values shared by the whole file *)

(** Go's [error] values.  [ErrMultiplePolicies] is the package-level static
    error; [Errorf msg] is [fmt.Errorf(msg)] and [Wrapf msg e] is
    [fmt.Errorf(msg + ": %w", e)]; [ExternalError] stands for an error made
    by a collaborator. *)
Inductive error : Type :=
  | ErrMultiplePolicies
  | Errorf (msg : string)
  | Wrapf (msg : string) (wrapped : error)
  | ExternalError (msg : string).

(** A call that the caller checks with [if err != nil] before it looks at
    the value. *)
Inductive Result (A : Type) : Type :=
  | Ok (a : A)
  | Err (e : error).
Arguments Ok {A} a.
Arguments Err {A} e.

(** A call either returns or panics (run-time error such as a nil
    dereference). *)
Inductive Outcome (A : Type) : Type :=
  | Returned (a : A)
  | Panicked.
Arguments Returned {A} a.
Arguments Panicked {A}.

(** [context.Context] as far as the controller builds and passes it on.
    Durations are nanoseconds, as [time.Duration]. *)
Inductive Context : Type :=
  | Background
  | CallerCtx (id : nat)
  | WithTimeout (parent : Context) (d : Z).

#[global] Instance Context_eq_dec : EqDecision Context.
Proof. solve_decision. Defined.

Definition Nanosecond : Z := 1.
Definition Second : Z := 1000 * 1000 * 1000 * Nanosecond.
Definition Minute : Z := 60 * Second.

(** ** Signaler *)

Module Chan.

(** A buffered Go channel: its capacity and the values waiting in it,
    oldest first. *)
Record t (A : Type) : Type := make { cap : nat; buf : list A }.
Arguments make {A} cap buf.
Arguments cap {A} _.
Arguments buf {A} _.

(** [case ch <- x:] of a [select]: ready iff the buffer has room. *)
Definition try_send {A} (c : t A) (x : A) : option (t A) :=
  if decide (length (buf c) < cap c)
  then Some (make (cap c) (buf c ++ [x]))
  else None.

(** [case x := <-ch:] of a [select]: ready iff a value is waiting. *)
Definition try_recv {A} (c : t A) : option (A * t A) :=
  match buf c with
  | [] => None
  | x :: rest => Some (x, make (cap c) rest)
  end.

End Chan.

Record Signaler : Type := { Sig : Chan.t unit }.

(** [NewSignaler]: [Sig: make(chan struct{}, 1)]. *)
Definition NewSignaler : Signaler := {| Sig := Chan.make 1 [] |}.

(** [Signaler.Event]: a [select] with the send case and an empty
    [default]. *)
Definition Event (s : Signaler) : Signaler :=
  match Chan.try_send (Sig s) tt with
  | Some c => {| Sig := c |}
  | None => s
  end.

(** Tokens waiting in the Signaler. *)
Definition pending (s : Signaler) : nat := length (Chan.buf (Sig s)).

(** The consumer side, [case <-c.Sig.Sig:]: takes a token when one waits. *)
Definition Drain (s : Signaler) : option Signaler :=
  match Chan.try_recv (Sig s) with
  | Some (_, c) => Some {| Sig := c |}
  | None => None
  end.

(** What can happen to a Signaler: a producer calls [Event], or the
    consumer's receive fires (a receive on an empty channel does not fire
    and leaves it as it is). *)
Inductive SigOp : Type := OpEvent | OpDrain.

Definition sig_step (s : Signaler) (o : SigOp) : Signaler :=
  match o with
  | OpEvent => Event s
  | OpDrain => default s (Drain s)
  end.

Definition sig_run (ops : list SigOp) (s : Signaler) : Signaler :=
  foldl sig_step s ops.

(** A Signaler is well formed when it is what [NewSignaler] and the two
    operations can make of it: capacity one, at most one token. *)
Definition sig_wf (s : Signaler) : Prop :=
  Chan.cap (Sig s) = 1 ∧ pending s ≤ 1.

(** ** Collaborators from other packages *)

(** Node labels and annotations: Go's [map[string]string]. *)
Abbreviation Labels := (gmap string string).

(** The slim label-selector package as [PolicySelection] uses it:
    [slimmetav1.LabelSelectorAsSelector] returns Go's pair of a
    [labels.Selector] interface value ([None] is the nil interface) and an
    error ([None] is nil); [Matches] and [SelectorString] (the method [String])
    are the two methods called on a selector. *)
Class SlimSelectors : Type := {
  LabelSelector : Type;
  Selector : Type;
  LabelSelectorAsSelector : LabelSelector → option Selector * option error;
  Matches : Selector → Labels → bool;
  SelectorString : Selector → string
}.

(** [NewAnnotationMap] of annotations.go, with the type it builds. *)
Class AnnotationParser : Type := {
  AnnotationMap : Type;
  NewAnnotationMap : Labels → Result AnnotationMap
}.

(** [net.IP]: a byte slice, nil when the address is not known. *)
Abbreviation IP := (list Byte.byte).

Section Controller.

Context {selectors : SlimSelectors} {parser : AnnotationParser}.

(** [v2alpha1api.CiliumBGPPeeringPolicy], with the fields the controller
    reads; [Name] stands for the object's identity. *)
Record CiliumBGPPeeringPolicySpec : Type := { NodeSelector : LabelSelector }.
Record CiliumBGPPeeringPolicy : Type := {
  Name : string;
  Spec : CiliumBGPPeeringPolicySpec
}.

Record ControlPlaneState : Type := {
  PodCIDRs : list string;
  Annotations : AnnotationMap;
  IPv4 : IP;
  IPv6 : IP
}.

(** The [BGPRouterManager] interface: [ConfigurePeers] acts on the
    backend's own state and returns an error or nil. *)
Class BGPRouterManager : Type := {
  BGPState : Type;
  ConfigurePeers :
    Context → option CiliumBGPPeeringPolicy → option ControlPlaneState →
    BGPState → BGPState * option error
}.

Context {manager : BGPRouterManager}.

(** ** What an execution leaves behind *)

Inductive Level : Type := DebugLevel | InfoLevel | ErrorLevel.

Inductive FieldValue : Type :=
  | FString (s : string)
  | FLabels (l : Labels)
  | FCount (n : nat).

(** The four reads a reconciliation makes of the informer caches. *)
Inductive Query : Type := QList | QLabels | QAnnotations | QPodCIDRs.

Inductive Effect : Type :=
  | Log (component : string) (lvl : Level) (msg : string)
        (err : option error) (fields : list (string * FieldValue))
  | Asked (q : Query) (failed : bool)
  | CalledConfigurePeers (ctx : Context)
        (policy : option CiliumBGPPeeringPolicy)
        (state : option ControlPlaneState)
        (result : option error).

(** ** PolicySelection *)

(** The two log lines of the loop body. *)
Definition conversion_failed (e : error) : Effect :=
  Log "PolicySelection" ErrorLevel
    "Failed to convert CiliumBGPPeeringPolicy's NodeSelector to a label.Selector interface"
    (Some e) [].

Definition comparing (sel : Selector) (labels : Labels) : Effect :=
  Log "PolicySelection" DebugLevel
    "Comparing BGP policy node selector with node's labels" None
    [("policyNodeSelector", FString (SelectorString sel));
     ("nodeLabels", FLabels labels)].

(** The body of [for _, policy := range policies], with [selected] as the
    loop carries it.  The log lines written come back with the outcome.
    After a failed conversion the error is logged and the loop body goes
    on: [nodeSelector.String()] is evaluated next, which is a nil
    dereference when the conversion handed back a nil selector. *)
Fixpoint PolicySelection_range (labels : Labels)
    (policies : list CiliumBGPPeeringPolicy)
    (selected : option CiliumBGPPeeringPolicy)
  : list Effect * Outcome (option CiliumBGPPeeringPolicy * option error) :=
  match policies with
  | [] => ([], Returned (selected, None))
  | policy :: rest =>
      let '(nodeSelector, err) :=
        LabelSelectorAsSelector (NodeSelector (Spec policy)) in
      let failed :=
        match err with
        | Some e => [conversion_failed e]
        | None => []
        end in
      match nodeSelector with
      | None => (failed, Panicked)
      | Some sel =>
          let compared := failed ++ [comparing sel labels] in
          if Matches sel labels then
            match selected with
            | Some _ => (compared, Returned (None, Some ErrMultiplePolicies))
            | None =>
                let '(logs, out) :=
                  PolicySelection_range labels rest (Some policy) in
                (compared ++ logs, out)
            end
          else
            let '(logs, out) := PolicySelection_range labels rest selected in
            (compared ++ logs, out)
      end
  end.

Definition PolicySelection (ctx : Context) (labels : Labels)
    (policies : list CiliumBGPPeeringPolicy)
  : list Effect * Outcome (option CiliumBGPPeeringPolicy * option error) :=
  PolicySelection_range labels policies None.

(** A policy's node selector matches the labels: the conversion handed
    back a selector and that selector matches. *)
Definition selects (labels : Labels) (policy : CiliumBGPPeeringPolicy) : bool :=
  match fst (LabelSelectorAsSelector (NodeSelector (Spec policy))) with
  | Some sel => Matches sel labels
  | None => false
  end.

(** The candidates whose node selector matches, in the list's order. *)
Definition matching (labels : Labels) (policies : list CiliumBGPPeeringPolicy)
  : list CiliumBGPPeeringPolicy :=
  List.filter (selects labels) policies.

(** The conversion of the policy's node selector handed back a selector. *)
Definition convertible (policy : CiliumBGPPeeringPolicy) : Prop :=
  is_Some (fst (LabelSelectorAsSelector (NodeSelector (Spec policy)))).

(** What the count of matching candidates decides, [selected] being a
    match found earlier. *)
Definition decided (selected : option CiliumBGPPeeringPolicy)
    (matching : list CiliumBGPPeeringPolicy)
  : option CiliumBGPPeeringPolicy * option error :=
  match selected, matching with
  | _, [] => (selected, None)
  | None, [policy] => (Some policy, None)
  | _, _ => (None, Some ErrMultiplePolicies)
  end.

(** ** The controller's effects *)

(** The backend's state and everything the controller has done so far,
    oldest effect first. *)
Record World : Type := { backend : BGPState; trace : list Effect }.

(** Controller code: it reads and extends the world, and returns or
    panics. *)
Definition M (A : Type) : Type := World → Outcome A * World.

Definition ret {A} (a : A) : M A := λ w, (Returned a, w).

Definition bind {A B} (m : M A) (k : A → M B) : M B :=
  λ w, match m w with
       | (Returned a, w') => k a w'
       | (Panicked, w') => (Panicked, w')
       end.

Notation "x <- m ;; k" := (bind m (λ x, k))
  (at level 100, m at next level, k at level 200, only parsing).
Notation "m ;; k" := (bind m (λ _, k))
  (at level 100, k at level 200, only parsing).

Definition emit (e : Effect) : M unit :=
  λ w, (Returned tt, {| backend := backend w; trace := trace w ++ [e] |}).

Definition emit_all (es : list Effect) : M unit :=
  λ w, (Returned tt, {| backend := backend w; trace := trace w ++ es |}).

Definition panic {A} : M A := λ w, (Panicked, w).

Definition is_err {A} (r : Result A) : bool :=
  match r with Ok _ => false | Err _ => true end.

(** A read of an informer cache, noted in the trace with how it ended. *)
Definition ask {A} (q : Query) (r : Result A) : M (Result A) :=
  emit (Asked q (is_err r));; ret r.

(** [c.BGPMgr.ConfigurePeers(ctx, policy, state)]. *)
Definition call_ConfigurePeers (ctx : Context)
    (policy : option CiliumBGPPeeringPolicy)
    (state : option ControlPlaneState) : M (option error) :=
  λ w, let '(b, err) := ConfigurePeers ctx policy state (backend w) in
       (Returned err,
        {| backend := b;
           trace := trace w ++ [CalledConfigurePeers ctx policy state err] |}).

(** [PolicySelection] run inside the controller: its log lines join the
    trace, its panic is the caller's. *)
Definition call_PolicySelection (ctx : Context) (labels : Labels)
    (policies : list CiliumBGPPeeringPolicy)
  : M (option CiliumBGPPeeringPolicy * option error) :=
  let '(logs, out) := PolicySelection ctx labels policies in
  emit_all logs;;
  match out with
  | Returned r => ret r
  | Panicked => panic
  end.

(** The effects a piece of controller code adds to the trace of the world
    it starts from. *)
Definition effects_of {A} (m : M A) (w : World) : list Effect :=
  drop (length (trace w)) (trace (m w).2).

(** ** FullWithdrawal and Reconcile *)

(** [_ = c.BGPMgr.ConfigurePeers(ctx, nil, nil)]. *)
Definition FullWithdrawal (ctx : Context) : M unit :=
  _ <- call_ConfigurePeers ctx None None;; ret tt.

(** What the controller's collaborators answer during one reconciliation
    attempt: the policy lister, the three methods of [c.NodeSpec], and the
    node's addresses. *)
Record Snapshot : Type := {
  PolicyLister_List : Result (list CiliumBGPPeeringPolicy);
  NodeSpec_Labels : Result Labels;
  NodeSpec_Annotations : Result Labels;
  NodeSpec_PodCIDRs : Result (list string);
  GetIPv4 : IP;
  GetIPv6 : IP
}.

Definition Reconcile_log (lvl : Level) (msg : string) (err : option error)
    (fields : list (string * FieldValue)) : M unit :=
  emit (Log "Controller.Reconcile" lvl msg err fields).

Definition Reconcile (s : Snapshot) (ctx : Context) : M (option error) :=
  listed <- ask QList (PolicyLister_List s);;
  match listed with
  | Err _ => ret (Some (Errorf "failed to list CiliumBGPPeeringPolicies"))
  | Ok policies =>
  Reconcile_log DebugLevel "Successfully listed CiliumBGPPeeringPolicies"
    None [("count", FCount (length policies))];;
  labelled <- ask QLabels (NodeSpec_Labels s);;
  match labelled with
  | Err err => ret (Some (Wrapf "failed to retrieve labels for Node" err))
  | Ok labels =>
  selection <- call_PolicySelection ctx labels policies;;
  match selection with
  | (_, Some err) =>
      Reconcile_log ErrorLevel "Policy selection failed" (Some err) [];;
      FullWithdrawal ctx;;
      ret (Some err)
  | (None, None) =>
      Reconcile_log DebugLevel
        "No BGP peering policy applies to this node, any existing BGP sessions will be removed."
        None [];;
      FullWithdrawal ctx;;
      ret None
  | (Some policy, None) =>
  annotated <- ask QAnnotations (NodeSpec_Annotations s);;
  match annotated with
  | Err err => ret (Some (Wrapf "failed to retrieve Node's annotations" err))
  | Ok annotations =>
  match NewAnnotationMap annotations with
  | Err err => ret (Some (Wrapf "failed to parse annotations" err))
  | Ok annoMap =>
  ranged <- ask QPodCIDRs (NodeSpec_PodCIDRs s);;
  match ranged with
  | Err err =>
      ret (Some (Wrapf "failed to retrieve Node's pod CIDR ranges" err))
  | Ok podCIDRs =>
  let state := {| PodCIDRs := podCIDRs; Annotations := annoMap;
                  IPv4 := GetIPv4 s; IPv6 := GetIPv6 s |} in
  Reconcile_log DebugLevel
    "Asking configured BGPRouterManager to configure peering" None [];;
  configured <- call_ConfigurePeers ctx (Some policy) (Some state);;
  match configured with
  | Some err =>
      ret (Some (Wrapf
        "failed to configure BGP peers, cannot apply BGP peering policy" err))
  | None => ret None
  end end end end end end end.

(** The effects of an attempt up to the end of policy selection, [logs]
    being the lines [PolicySelection] wrote. *)
Definition selecting (policies : list CiliumBGPPeeringPolicy)
    (logs : list Effect) : list Effect :=
  [Asked QList false;
   Log "Controller.Reconcile" DebugLevel
     "Successfully listed CiliumBGPPeeringPolicies" None
     [("count", FCount (length policies))];
   Asked QLabels false] ++ logs.

(** ** Run *)

Inductive Status : Type := Running | Exited | Crashed.

(** The control loop's goroutine together with what it shares with the
    other goroutines: the Signaler's channel and the cancellation of the
    loop's context. *)
Record Loop : Type := {
  signaler : Signaler;
  cancelled : bool;
  world : World;
  status : Status
}.

Inductive Branch : Type := CaseDone | CaseSig.

(** What happens next: a watch callback calls [Sig.Event], the loop's
    context is cancelled, or the loop's goroutine is scheduled at its
    [select]; [prefer] is the case Go's random choice takes when both are
    ready, [snap] what the collaborators answer should a reconciliation
    run. *)
Inductive Step : Type :=
  | Notify
  | Cancel
  | Wake (prefer : Branch) (snap : Snapshot).

(** The [select] of the loop: [None] when neither case is ready. *)
Definition select (done : bool) (s : Signaler) (prefer : Branch)
  : option (Branch * Signaler) :=
  match done, Drain s with
  | true, Some s' =>
      Some match prefer with
           | CaseDone => (CaseDone, s)
           | CaseSig => (CaseSig, s')
           end
  | true, None => Some (CaseDone, s)
  | false, Some s' => Some (CaseSig, s')
  | false, None => None
  end.

Definition Run_log (lvl : Level) (msg : string) (err : option error)
  : M unit :=
  emit (Log "Controller.Run" lvl msg err []).

(** The fresh context of the shutdown path. *)
Definition killCTX : Context := WithTimeout Background (1 * Minute).

(** One case body of the [select]; [true] means [return].  The deferred
    [cancel] of the shutdown context only releases its timer and leaves no
    effect. *)
Definition Run_case (ctx : Context) (b : Branch) (snap : Snapshot) : M bool :=
  match b with
  | CaseDone =>
      FullWithdrawal killCTX;;
      Run_log InfoLevel "Cilium BGP Control Plane Controller shut down" None;;
      ret true
  | CaseSig =>
      Run_log InfoLevel
        "Cilium BGP Control Plane Controller woken for reconciliation" None;;
      err <- Reconcile snap ctx;;
      match err with
      | Some e =>
          Run_log ErrorLevel "Encountered error during reconciliation"
            (Some e)
      | None => Run_log DebugLevel "Successfully completed reconciliation" None
      end;;
      ret false
  end.

(** [Run] up to the loop: two log lines around the initial signal. *)
Definition Run_enter (l : Loop) : Loop :=
  let '(_, w) :=
    (Run_log DebugLevel "Starting informers" None;;
     Run_log InfoLevel "Cilium BGP Control Plane Controller now running..."
       None) (world l) in
  {| signaler := Event (signaler l); cancelled := cancelled l;
     world := w; status := Running |}.

Definition Run_step (ctx : Context) (l : Loop) (st : Step) : Loop :=
  match st with
  | Notify =>
      {| signaler := Event (signaler l); cancelled := cancelled l;
         world := world l; status := status l |}
  | Cancel =>
      {| signaler := signaler l; cancelled := true;
         world := world l; status := status l |}
  | Wake prefer snap =>
      match status l with
      | Running =>
          match select (cancelled l) (signaler l) prefer with
          | None => l
          | Some (b, s) =>
              let '(out, w) := Run_case ctx b snap (world l) in
              {| signaler := s; cancelled := cancelled l; world := w;
                 status := match out with
                           | Returned true => Exited
                           | Returned false => Running
                           | Panicked => Crashed
                           end |}
          end
      | _ => l
      end
  end.

(** [c.Run(ctx)] from the state at its call, under a schedule. *)
Definition Run (ctx : Context) (l : Loop) (schedule : list Step) : Loop :=
  foldl (Run_step ctx) (Run_enter l) schedule.

(** Every policy the lister hands out in this snapshot has a node selector
    that converts. *)
Definition selectors_convert (snap : Snapshot) : Prop :=
  match PolicyLister_List snap with
  | Ok policies => Forall convertible policies
  | Err _ => True
  end.

(** The same for every wake-up of a schedule. *)
Definition schedule_converts (schedule : list Step) : Prop :=
  Forall (λ st, match st with
                | Wake _ snap => selectors_convert snap
                | _ => True
                end) schedule.

(** The calls to [ConfigurePeers] in a trace, in order. *)
Definition is_backend_call (e : Effect) : bool :=
  match e with
  | CalledConfigurePeers _ _ _ _ => true
  | _ => false
  end.

Definition backend_calls (t : list Effect) : list Effect :=
  List.filter is_backend_call t.

(** A full withdrawal, [ConfigurePeers(ctx, nil, nil)], under the given
    context. *)
Definition is_withdrawal_under (ctx : Context) (e : Effect) : bool :=
  match e with
  | CalledConfigurePeers c None None _ => bool_decide (c = ctx)
  | _ => false
  end.

Definition withdrawals_under (ctx : Context) (t : list Effect) : nat :=
  length (List.filter (is_withdrawal_under ctx) t).

(** The reconciliation attempts started in a trace: each starts with the
    read of the policy lister. *)
Definition is_attempt_start (e : Effect) : bool :=
  match e with
  | Asked QList _ => true
  | _ => false
  end.

Definition attempts (t : list Effect) : nat :=
  length (List.filter is_attempt_start t).

End Controller.

(** ** NewController *)

(** The IPAM mode names of pkg/ipam/option that the constructor switches
    on. *)
Class IPAMOption : Type := {
  IPAMClusterPoolV2 : string;
  IPAMClusterPool : string;
  IPAMKubernetes : string
}.

(** The part of [option.DaemonConfig] the constructor reads. *)
Record DaemonConfig : Type := {
  EnableBGPControlPlane : bool;
  IPAM : string
}.

Definition BGPControlPlaneEnabled (c : DaemonConfig) : bool :=
  EnableBGPControlPlane c.

(** The two implementations of [nodeSpecer]. *)
Inductive nodeSpecer : Type := kubernetesNodeSpecer | ciliumNodeSpecer.

(** The controller as the constructor builds it: [NodeSpec] is nil until
    the switch on the IPAM mode sets it. *)
Record Controller : Type := {
  NodeSpec : option nodeSpecer;
  ControllerSig : Signaler
}.

(** Both helpers register [sig.Event] on their node informer and return
    their nodeSpecer with a nil error. *)
Definition configureForK8sIPAM (sig : Signaler) : nodeSpecer * option error :=
  (kubernetesNodeSpecer, None).

Definition configureForClusterPoolIPAM (sig : Signaler)
  : nodeSpecer * option error :=
  (ciliumNodeSpecer, None).

(** [hive.Lifecycle]: the hooks appended so far. *)
Record ControllerParams : Type := {
  Lifecycle : list Controller;
  Config : DaemonConfig
}.

Section Constructor.

Context {ipam : IPAMOption}.

(** [NewController] returns Go's pair and the lifecycle as it leaves it. *)
Definition NewController (params : ControllerParams)
  : (option Controller * option error) * list Controller :=
  if negb (BGPControlPlaneEnabled (Config params))
  then ((None, None), Lifecycle params)
  else
    let sig := NewSignaler in
    let c := {| NodeSpec := None; ControllerSig := sig |} in
    let mode := IPAM (Config params) in
    let switched : Result Controller :=
      if String.eqb mode IPAMClusterPoolV2 || String.eqb mode IPAMClusterPool
      then
        match configureForClusterPoolIPAM sig with
        | (_, Some err) =>
            Err (Wrapf
              "failed to configure listers and informers for ClusterPool IPAM"
              err)
        | (spec, None) =>
            Ok {| NodeSpec := Some spec; ControllerSig := ControllerSig c |}
        end
      else if String.eqb mode IPAMKubernetes
      then
        match configureForK8sIPAM sig with
        | (_, Some err) =>
            Err (Wrapf
              "failed to configure listers and informers for Kubernetes IPAM"
              err)
        | (spec, None) =>
            Ok {| NodeSpec := Some spec; ControllerSig := ControllerSig c |}
        end
      else
        Err (Errorf
          "failed to determine a compatible IPAM mode, cannot initialize BGP control plane")
    in
    match switched with
    | Err err => ((None, Some err), Lifecycle params)
    | Ok c' => ((Some c', None), Lifecycle params ++ [c'])
    end.

(** The variant the IPAM mode stands for, if any. *)
Definition variant_of (mode : string) : option nodeSpecer :=
  if String.eqb mode IPAMClusterPoolV2 || String.eqb mode IPAMClusterPool
  then Some ciliumNodeSpecer
  else if String.eqb mode IPAMKubernetes then Some kubernetesNodeSpecer
  else None.

End Constructor.

(** ** A small cluster to run the definitions on *)

Module Cluster.

(** Modelled from the spec: the label-selector package is not among the
    sources.  Following the glossary, a node selector is a predicate over
    label sets: here every listed pair must be among the labels.
    Following 4.3, parsing a selector can fail: [Unparsable] is such a
    selector, and its conversion returns the error with a nil selector,
    Go's way. *)
Inductive label_selector : Type :=
  | MatchLabels (pairs : list (string * string))
  | Unparsable (why : string).

Definition convert (ls : label_selector)
  : option (list (string * string)) * option error :=
  match ls with
  | MatchLabels pairs => (Some pairs, None)
  | Unparsable why => (None, Some (ExternalError why))
  end.

Definition matches (pairs : list (string * string)) (labels : Labels) : bool :=
  forallb (λ kv, bool_decide (labels !! kv.1 = Some kv.2)) pairs.

#[export] Instance selectors : SlimSelectors := {|
  LabelSelector := label_selector;
  Selector := list (string * string);
  LabelSelectorAsSelector := convert;
  Matches := matches;
  SelectorString := λ pairs, String.concat "," (map (λ kv, kv.1 +:+ "=" +:+ kv.2) pairs)
|}.

(** Modelled from the spec: annotations.go is not among the sources.
    Following 3, construction fails on a malformed entry and is never
    partial: here an entry is malformed when its value is empty. *)
#[export] Instance parser : AnnotationParser := {|
  AnnotationMap := Labels;
  NewAnnotationMap := λ raw,
    if bool_decide (map_Forall (λ _ v, v ≠ "") raw)
    then Ok raw
    else Err (ExternalError "malformed annotation")
|}.

(** A backend that counts its calls and fails every one of them, also a
    withdrawal: the controller must cope with any backend. *)
#[export] Instance failing : BGPRouterManager := {|
  BGPState := nat;
  ConfigurePeers := λ _ _ _ n, (S n, Some (ExternalError "backend down"))
|}.

#[export] Instance ipam : IPAMOption := {|
  IPAMClusterPoolV2 := "cluster-pool-v2beta";
  IPAMClusterPool := "cluster-pool";
  IPAMKubernetes := "kubernetes"
|}.

Definition policy (name : string) (ls : label_selector)
  : CiliumBGPPeeringPolicy :=
  {| Name := name; Spec := {| NodeSelector := ls |} |}.

Definition edge : Labels := {[ "role" := "edge" ]}.

Definition edge_a : CiliumBGPPeeringPolicy :=
  policy "edge-a" (MatchLabels [("role", "edge")]).
Definition edge_b : CiliumBGPPeeringPolicy :=
  policy "edge-b" (MatchLabels [("role", "edge")]).
Definition core : CiliumBGPPeeringPolicy :=
  policy "core" (MatchLabels [("role", "core")]).
Definition broken : CiliumBGPPeeringPolicy :=
  policy "broken" (Unparsable "not a valid pod selector operator").

Definition world0 : World := {| backend := 0; trace := [] |}.

Definition snapshot (policies : Result (list CiliumBGPPeeringPolicy))
    (labels annotations : Result Labels) (cidrs : Result (list string))
  : Snapshot :=
  {| PolicyLister_List := policies;
     NodeSpec_Labels := labels;
     NodeSpec_Annotations := annotations;
     NodeSpec_PodCIDRs := cidrs;
     GetIPv4 := [Byte.xc0; Byte.x00; Byte.x02; Byte.x05];
     GetIPv6 := [] |}.

Definition entry : Loop :=
  {| signaler := NewSignaler; cancelled := false;
     world := world0; status := Running |}.

Definition cidrs : Result (list string) := Ok ["10.0.1.0/24"].

(** Two policies select the node. *)
Definition ambiguous : Snapshot :=
  snapshot (Ok [edge_a; edge_b]) (Ok edge) (Ok ∅) cidrs.

(** No policy selects the node. *)
Definition unmatched : Snapshot :=
  snapshot (Ok [core]) (Ok edge) (Ok ∅) cidrs.

(** One policy selects the node, whose annotations do not parse. *)
Definition malformed : Labels :=
  {[ "cilium.io/bgp-virtual-router.64512" := "" ]}.
Definition unparsed : Snapshot :=
  snapshot (Ok [edge_a]) (Ok edge) (Ok malformed) cidrs.

(** One policy selects the node, whose pod CIDRs cannot be read. *)
Definition rangeless : Snapshot :=
  snapshot (Ok [edge_a]) (Ok edge) (Ok ∅)
    (Err (ExternalError "node not found")).

(** One policy selects the node and everything is read. *)
Definition applied : Snapshot :=
  snapshot (Ok [edge_a]) (Ok edge) (Ok ∅) cidrs.

(** The control plane is enabled under an IPAM mode the constructor has
    no case for. *)
Definition eni : ControllerParams :=
  {| Lifecycle := [];
     Config := {| EnableBGPControlPlane := true; IPAM := "eni" |} |}.

End Cluster.

(** * Properties *)

(** ** Signaler *)

Lemma sig_wf_New : sig_wf NewSignaler.
Proof. split; [reflexivity | cbn; lia]. Qed.

Lemma sig_wf_shape (s : Signaler) :
  sig_wf s →
  s = {| Sig := Chan.make 1 [] |} ∨ s = {| Sig := Chan.make 1 [tt] |}.
Proof.
  destruct s as [[c b]]. unfold sig_wf, pending. cbn. intros [-> Hlen].
  destruct b as [|[] [|? ?]]; cbn in Hlen; [by left | by right | lia].
Qed.

Lemma sig_wf_step (s : Signaler) (o : SigOp) : sig_wf s → sig_wf (sig_step s o).
Proof.
  intros Hwf. destruct (sig_wf_shape s Hwf) as [-> | ->], o;
    unfold sig_wf, pending; vm_compute; lia.
Qed.

Lemma sig_wf_run (ops : list SigOp) (s : Signaler) :
  sig_wf s → sig_wf (sig_run ops s).
Proof.
  revert s. induction ops as [|o ops IH]; intros s Hwf; [done|].
  cbn. apply IH, sig_wf_step, Hwf.
Qed.

(** C7. Whatever producers and the consumer have done to a Signaler made
    by [NewSignaler], at most one token is pending; a further [Event]
    enqueues one token when none is pending and changes nothing when one
    is.  [Event] is a total function: it always returns. *)
Theorem Signaler_coalesces (ops : list SigOp) :
  let s := sig_run ops NewSignaler in
  pending s ≤ 1 ∧
  match pending s with
  | 0 => pending (Event s) = 1
  | _ => Event s = s
  end.
Proof.
  intros s. pose proof (sig_wf_run ops NewSignaler sig_wf_New) as Hwf.
  fold s in Hwf. split; [apply Hwf|].
  destruct (sig_wf_shape s Hwf) as [-> | ->]; reflexivity.
Qed.

Lemma sig_burst (s : Signaler) (n : nat) :
  sig_wf s →
  sig_run (replicate (S n) OpEvent) s = {| Sig := Chan.make 1 [tt] |}.
Proof.
  intros Hwf. induction n as [|n IH].
  - by destruct (sig_wf_shape s Hwf) as [-> | ->].
  - change (replicate (S (S n)) OpEvent)
      with ([OpEvent] ++ replicate (S n) OpEvent).
    unfold sig_run in *. rewrite foldl_app. cbn [foldl].
    destruct (sig_wf_shape s Hwf) as [-> | ->].
    + change (sig_step {| Sig := Chan.make 1 [] |} OpEvent)
        with {| Sig := Chan.make 1 [tt] |}.
      clear IH. induction n as [|n IH]; [done|]. cbn [replicate foldl].
      by change (sig_step {| Sig := Chan.make 1 [tt] |} OpEvent)
        with {| Sig := Chan.make 1 [tt] |}.
    + change (sig_step {| Sig := Chan.make 1 [tt] |} OpEvent)
        with {| Sig := Chan.make 1 [tt] |}.
      exact IH.
Qed.

(** X10. Coalescing: on a Signaler made by [NewSignaler], whatever
    happened to it before, a burst of one or more [Event] calls leaves
    exactly one token, and one receive after the burst leaves none. *)
Theorem Signaler_burst (ops : list SigOp) (n : nat) :
  let s := sig_run ops NewSignaler in
  pending (sig_run (replicate (S n) OpEvent) s) = 1 ∧
  pending (sig_run (replicate (S n) OpEvent ++ [OpDrain]) s) = 0.
Proof.
  intros s. pose proof (sig_wf_run ops NewSignaler sig_wf_New) as Hwf.
  fold s in Hwf. unfold sig_run at 2. rewrite foldl_app.
  fold (sig_run (replicate (S n) OpEvent) s). by rewrite sig_burst.
Qed.

(** ** PolicySelection *)

Section Selection.

Context {selectors : SlimSelectors} {parser : AnnotationParser}.

Implicit Types (labels : Labels) (policy : CiliumBGPPeeringPolicy)
  (policies : list CiliumBGPPeeringPolicy)
  (selected : option CiliumBGPPeeringPolicy).

Lemma matching_cons labels policy policies :
  matching labels (policy :: policies) =
  if selects labels policy
  then policy :: matching labels policies
  else matching labels policies.
Proof. reflexivity. Qed.

Lemma matching_Permutation labels policies policies' :
  policies ≡ₚ policies' → matching labels policies ≡ₚ matching labels policies'.
Proof.
  induction 1 as [|p ps ps' _ IH|p q ps|ps1 ps2 ps3 _ IH1 _ IH2].
  - done.
  - rewrite !matching_cons. destruct (selects labels p); by rewrite IH.
  - rewrite !matching_cons.
    destruct (selects labels p), (selects labels q); try done. apply perm_swap.
  - by etrans.
Qed.

Lemma decided_Permutation (l l' : list CiliumBGPPeeringPolicy) :
  l ≡ₚ l' → decided None l = decided None l'.
Proof.
  intros Hp. pose proof (Permutation_length Hp) as Hlen.
  destruct l as [|p [|q l]], l' as [|p' [|q' l']]; try done.
  apply Permutation_singleton_l in Hp. by simplify_eq.
Qed.

(** One pass of the loop body over a candidate whose conversion handed
    back a selector. *)
Lemma PolicySelection_range_cons labels policy policies selected sel err :
  LabelSelectorAsSelector (NodeSelector (Spec policy)) = (Some sel, err) →
  (PolicySelection_range labels (policy :: policies) selected).2 =
  if Matches sel labels then
    match selected with
    | Some _ => Returned (None, Some ErrMultiplePolicies)
    | None => (PolicySelection_range labels policies (Some policy)).2
    end
  else (PolicySelection_range labels policies selected).2.
Proof.
  intros Hconv. cbn [PolicySelection_range]. rewrite Hconv.
  destruct (Matches sel labels), selected; try done.
  - by destruct (PolicySelection_range labels policies (Some policy)).
  - by destruct (PolicySelection_range labels policies (Some c)).
  - by destruct (PolicySelection_range labels policies None).
Qed.

Lemma selects_converted labels policy sel err :
  LabelSelectorAsSelector (NodeSelector (Spec policy)) = (Some sel, err) →
  selects labels policy = Matches sel labels.
Proof. intros Hconv. unfold selects. by rewrite Hconv. Qed.

(** Away from failed conversions the loop decides by the count of the
    matching candidates. *)
Lemma PolicySelection_range_decided labels policies selected :
  Forall convertible policies →
  (PolicySelection_range labels policies selected).2 =
  Returned (decided selected (matching labels policies)).
Proof.
  revert selected. induction policies as [|p ps IH]; intros selected Hconv.
  - by destruct selected.
  - apply Forall_cons in Hconv as [[sel Hsel] Hrest].
    destruct (LabelSelectorAsSelector (NodeSelector (Spec p)))
      as [ns err] eqn:Hp.
    cbn in Hsel. subst ns.
    rewrite (PolicySelection_range_cons _ _ _ _ _ _ Hp), matching_cons,
      (selects_converted _ _ _ _ Hp).
    destruct (Matches sel labels); [|by apply IH].
    destruct selected as [q|]; [done|].
    rewrite IH by done. by destruct (matching labels ps).
Qed.

Lemma PolicySelection_decided ctx labels policies :
  Forall convertible policies →
  (PolicySelection ctx labels policies).2 =
  Returned (decided None (matching labels policies)).
Proof. apply PolicySelection_range_decided. Qed.

(** Away from failed conversions the outcome does not depend on the order
    of the candidates. *)
Lemma PolicySelection_Permutation ctx labels policies policies' :
  Forall convertible policies → policies ≡ₚ policies' →
  (PolicySelection ctx labels policies).2 =
  (PolicySelection ctx labels policies').2.
Proof.
  intros Hconv Hperm. rewrite !PolicySelection_decided.
  - by apply f_equal, decided_Permutation, matching_Permutation.
  - by rewrite <-Hperm.
  - done.
Qed.

(** The only error [PolicySelection] returns is [ErrMultiplePolicies], and
    no policy comes with it. *)
Lemma PolicySelection_range_error labels policies selected chosen e :
  (PolicySelection_range labels policies selected).2 =
    Returned (chosen, Some e) →
  chosen = None ∧ e = ErrMultiplePolicies.
Proof.
  revert selected. induction policies as [|p ps IH]; intros selected.
  - cbn. congruence.
  - cbn [PolicySelection_range].
    destruct (LabelSelectorAsSelector (NodeSelector (Spec p))) as [[sel|] err];
      [|done].
    destruct (Matches sel labels), selected as [q|]; cbn.
    + intros ?; by simplify_eq.
    + destruct (PolicySelection_range labels ps (Some p)) eqn:Hr. cbn.
      intros ->. apply (IH (Some p)). by rewrite Hr.
    + destruct (PolicySelection_range labels ps (Some q)) eqn:Hr. cbn.
      intros ->. apply (IH (Some q)). by rewrite Hr.
    + destruct (PolicySelection_range labels ps None) eqn:Hr. cbn.
      intros ->. apply (IH None). by rewrite Hr.
Qed.

(** [PolicySelection] only writes log lines. *)
Lemma PolicySelection_range_logs labels policies selected e :
  e ∈ (PolicySelection_range labels policies selected).1 →
  ∃ lvl msg err fields, e = Log "PolicySelection" lvl msg err fields.
Proof.
  revert selected. induction policies as [|p ps IH]; intros selected.
  - cbn. by intros ?%elem_of_nil.
  - cbn [PolicySelection_range].
    destruct (LabelSelectorAsSelector (NodeSelector (Spec p))) as [ns err].
    assert (∀ l : list Effect,
      e ∈ match err with Some e0 => [conversion_failed e0] | None => [] end
          ++ l →
      (e ∈ l → ∃ lvl msg err fields, e = Log "PolicySelection" lvl msg err fields) →
      ∃ lvl msg err fields, e = Log "PolicySelection" lvl msg err fields)
      as Hfailed.
    { intros l [Hin|Hin]%elem_of_app Hl; [|by apply Hl].
      destruct err; [|by apply elem_of_nil in Hin].
      apply list_elem_of_singleton in Hin. unfold conversion_failed in Hin.
      eauto. }
    destruct ns as [sel|].
    2:{ cbn. intros Hin. apply (Hfailed []); [by rewrite app_nil_r|].
        by intros ?%elem_of_nil. }
    assert (∀ l : list Effect,
      (e ∈ l → ∃ lvl msg err fields, e = Log "PolicySelection" lvl msg err fields) →
      e ∈ [comparing sel labels] ++ l →
      ∃ lvl msg err fields, e = Log "PolicySelection" lvl msg err fields)
      as Hcompared.
    { intros l Hl [Hin|Hin]%elem_of_app; [|by apply Hl].
      apply list_elem_of_singleton in Hin. unfold comparing in Hin. eauto. }
    destruct (Matches sel labels), selected as [q|]; cbn.
    + intros Hin. apply (Hfailed _ Hin). intros Hin'.
      apply (Hcompared []); [by intros ?%elem_of_nil|done].
    + destruct (PolicySelection_range labels ps (Some p)) eqn:Hr. cbn.
      rewrite <-app_assoc. intros Hin. apply (Hfailed _ Hin).
      apply Hcompared. intros Hin'. apply (IH (Some p)). by rewrite Hr.
    + destruct (PolicySelection_range labels ps (Some q)) eqn:Hr. cbn.
      rewrite <-app_assoc. intros Hin. apply (Hfailed _ Hin).
      apply Hcompared. intros Hin'. apply (IH (Some q)). by rewrite Hr.
    + destruct (PolicySelection_range labels ps None) eqn:Hr. cbn.
      rewrite <-app_assoc. intros Hin. apply (Hfailed _ Hin).
      apply Hcompared. intros Hin'. apply (IH None). by rewrite Hr.
Qed.

Lemma decided_no_error_cons policy (l : list CiliumBGPPeeringPolicy) selected :
  (decided selected (policy :: l)).2 = None →
  selected = None ∧ (decided (Some policy) l).2 = None.
Proof. destruct selected, l; cbn; done. Qed.

(** The loop reaches a candidate whose conversion came back with an error
    and a nil selector while no ambiguity has been found: it logs the
    error and panics. *)
Lemma PolicySelection_range_panics labels before bad after selected e :
  Forall convertible before →
  (decided selected (matching labels before)).2 = None →
  LabelSelectorAsSelector (NodeSelector (Spec bad)) = (None, Some e) →
  ∃ logs,
    PolicySelection_range labels (before ++ bad :: after) selected =
    (logs ++ [conversion_failed e], Panicked).
Proof.
  intros Hconv Hdec Hbad. revert selected Hdec.
  induction Hconv as [|p ps [sel Hsel] _ IH]; intros selected Hdec.
  - exists []. cbn. by rewrite Hbad.
  - cbn [app PolicySelection_range].
    destruct (LabelSelectorAsSelector (NodeSelector (Spec p)))
      as [ns err] eqn:Hp.
    cbn in Hsel. subst ns.
    rewrite matching_cons, (selects_converted _ _ _ _ Hp) in Hdec.
    destruct (Matches sel labels).
    + apply decided_no_error_cons in Hdec as [-> Hdec].
      destruct (IH _ Hdec) as [logs ->].
      eexists. by rewrite app_assoc.
    + destruct (IH _ Hdec) as [logs ->].
      eexists. by rewrite app_assoc.
Qed.

(** C3, as the code has it. A candidate's node selector fails to convert
    (the helper hands back the error and a nil selector) while fewer than
    two of the candidates before it match: [PolicySelection] logs the
    failure and then panics, it does not skip the candidate and go on to
    the remaining ones. *)
Theorem PolicySelection_failed_conversion_panics ctx labels before bad after e :
  Forall convertible before →
  length (matching labels before) ≤ 1 →
  LabelSelectorAsSelector (NodeSelector (Spec bad)) = (None, Some e) →
  ∃ logs,
    PolicySelection ctx labels (before ++ bad :: after) =
    (logs ++ [conversion_failed e], Panicked).
Proof.
  intros Hconv Hlen Hbad.
  apply PolicySelection_range_panics; [done| |done].
  destruct (matching labels before) as [|p [|q l]]; cbn in *; [done|done|lia].
Qed.

(** The loop has returned: its result is what the count of the matching
    candidates decides. *)
Lemma PolicySelection_range_returned labels policies selected r :
  (PolicySelection_range labels policies selected).2 = Returned r →
  r = decided selected (matching labels policies).
Proof.
  revert selected. induction policies as [|p ps IH]; intros selected.
  - cbn. intros [= <-]. by destruct selected.
  - destruct (LabelSelectorAsSelector (NodeSelector (Spec p)))
      as [[sel|] err] eqn:Hp.
    2:{ cbn [PolicySelection_range]. by rewrite Hp. }
    rewrite (PolicySelection_range_cons _ _ _ _ _ _ Hp), matching_cons,
      (selects_converted _ _ _ _ Hp).
    destruct (Matches sel labels); [|by apply IH].
    destruct selected as [q|]; [by intros [= <-]|].
    intros Hr. rewrite (IH _ Hr). by destruct (matching labels ps).
Qed.

Lemma decided_no_error (l : list CiliumBGPPeeringPolicy) :
  (decided None l).2 = None ↔ length l ≤ 1.
Proof. destruct l as [|p [|q l]]; cbn; split; (done || lia). Qed.

(** The loop reaches a candidate whose conversion handed back no selector
    while no ambiguity has been found: it panics. *)
Lemma PolicySelection_range_nil_selector labels before bad after selected :
  Forall convertible before →
  (decided selected (matching labels before)).2 = None →
  ¬ convertible bad →
  (PolicySelection_range labels (before ++ bad :: after) selected).2 = Panicked.
Proof.
  intros Hconv Hdec Hbad. revert selected Hdec.
  induction Hconv as [|p ps [sel Hsel] _ IH]; intros selected Hdec.
  - cbn. destruct (LabelSelectorAsSelector (NodeSelector (Spec bad)))
      as [[sel|] err] eqn:Hb; [|done].
    exfalso. apply Hbad. unfold convertible. by rewrite Hb.
  - destruct (LabelSelectorAsSelector (NodeSelector (Spec p)))
      as [ns err] eqn:Hp.
    cbn in Hsel. subst ns. cbn [app].
    rewrite (PolicySelection_range_cons _ _ _ _ _ _ Hp).
    rewrite matching_cons, (selects_converted _ _ _ _ Hp) in Hdec.
    destruct (Matches sel labels); [|by apply IH].
    apply decided_no_error_cons in Hdec as [-> Hdec]. by apply IH.
Qed.

(** A panic of the loop is a nil selector met before any ambiguity. *)
Lemma PolicySelection_range_panicked labels policies selected :
  (PolicySelection_range labels policies selected).2 = Panicked →
  ∃ before bad after,
    policies = before ++ bad :: after ∧
    Forall convertible before ∧
    (decided selected (matching labels before)).2 = None ∧
    ¬ convertible bad.
Proof.
  revert selected. induction policies as [|p ps IH]; intros selected; [done|].
  destruct (LabelSelectorAsSelector (NodeSelector (Spec p)))
    as [[sel|] err] eqn:Hp.
  2:{ intros _. exists [], p, ps. repeat split; [done|by destruct selected|].
      unfold convertible. rewrite Hp. by intros [? ?]. }
  rewrite (PolicySelection_range_cons _ _ _ _ _ _ Hp).
  assert (convertible p) as Hconv by (unfold convertible; by rewrite Hp).
  destruct (Matches sel labels) eqn:Hm.
  - destruct selected as [q|]; [done|].
    intros (before & bad & after & -> & Hbefore & Hdec & Hbad)%IH.
    exists (p :: before), bad, after. repeat split; [by constructor| |done].
    rewrite matching_cons, (selects_converted _ _ _ _ Hp), Hm.
    by destruct (matching labels before).
  - intros (before & bad & after & -> & Hbefore & Hdec & Hbad)%IH.
    exists (p :: before), bad, after. repeat split; [by constructor| |done].
    by rewrite matching_cons, (selects_converted _ _ _ _ Hp), Hm.
Qed.

(** X1. When the node selector of every candidate converts,
    [PolicySelection] returns, and what it returns is decided by the
    number of candidates matching the labels: none gives no policy and no
    error, one gives that policy, more give [ErrMultiplePolicies] and no
    policy. *)
Theorem PolicySelection_by_count ctx labels policies :
  Forall convertible policies →
  (PolicySelection ctx labels policies).2 =
  Returned match matching labels policies with
           | [] => (None, None)
           | [policy] => (Some policy, None)
           | _ => (None, Some ErrMultiplePolicies)
           end.
Proof.
  intros Hconv. unfold PolicySelection.
  rewrite PolicySelection_range_decided by done.
  by destruct (matching labels policies) as [|p [|q l]].
Qed.

(** X2. The order of the candidates does not matter to what
    [PolicySelection] returns: two runs over the same candidates in two
    orders that both return, return the same; and when every node selector
    converts the two outcomes are equal. *)
Theorem PolicySelection_order_irrelevant ctx labels policies policies' :
  policies ≡ₚ policies' →
  (∀ r r',
     (PolicySelection ctx labels policies).2 = Returned r →
     (PolicySelection ctx labels policies').2 = Returned r' →
     r = r') ∧
  (Forall convertible policies →
   (PolicySelection ctx labels policies).2 =
   (PolicySelection ctx labels policies').2).
Proof.
  intros Hperm. split.
  - intros r r' Hr Hr'.
    apply PolicySelection_range_returned in Hr, Hr'. subst r r'.
    by apply decided_Permutation, matching_Permutation.
  - intros Hconv. by apply PolicySelection_Permutation.
Qed.

(** X3. Whenever [PolicySelection] returns, for any candidates: a
    returned policy is the one candidate whose selector matches the
    labels; no policy and no error means no candidate matches; an error is
    [ErrMultiplePolicies], comes with no policy, and at least two
    candidates match. *)
Theorem PolicySelection_returned ctx labels policies chosen err :
  (PolicySelection ctx labels policies).2 = Returned (chosen, err) →
  match chosen, err with
  | Some policy, None => matching labels policies = [policy]
  | None, None => matching labels policies = []
  | None, Some e =>
      e = ErrMultiplePolicies ∧ 2 ≤ length (matching labels policies)
  | Some _, Some _ => False
  end.
Proof.
  intros Hr. apply PolicySelection_range_returned in Hr.
  destruct (matching labels policies) as [|p [|q l]]; cbn in Hr;
    simplify_eq; cbn; [done|done|split; [done|lia]].
Qed.

(** X4. [PolicySelection] panics exactly when some candidate's conversion
    hands back no selector, every candidate before it converts, and at most
    one of those matches the labels. *)
Theorem PolicySelection_panics_iff ctx labels policies :
  (PolicySelection ctx labels policies).2 = Panicked ↔
  ∃ before bad after,
    policies = before ++ bad :: after ∧
    Forall convertible before ∧
    length (matching labels before) ≤ 1 ∧
    ¬ convertible bad.
Proof.
  split.
  - intros (before & bad & after & -> & Hconv & Hdec & Hbad)
      %PolicySelection_range_panicked.
    exists before, bad, after. by rewrite <-decided_no_error.
  - intros (before & bad & after & -> & Hconv & Hlen & Hbad).
    apply PolicySelection_range_nil_selector; [done| |done].
    by apply decided_no_error.
Qed.

End Selection.

(** ** Reconcile *)

Section Reconciliation.

Context {selectors : SlimSelectors} {parser : AnnotationParser}
  {manager : BGPRouterManager}.

Implicit Types (s : Snapshot) (ctx : Context) (w : World)
  (labels : Labels) (policies : list CiliumBGPPeeringPolicy).

Lemma backend_calls_app (t1 t2 : list Effect) :
  backend_calls (t1 ++ t2) = backend_calls t1 ++ backend_calls t2.
Proof. apply List.filter_app. Qed.

Lemma backend_calls_PolicySelection ctx labels policies :
  backend_calls (PolicySelection ctx labels policies).1 = [].
Proof.
  unfold PolicySelection, backend_calls.
  pose proof (PolicySelection_range_logs labels policies None) as Hlogs.
  induction (PolicySelection_range labels policies None).1 as [|e l IH];
    [done|].
  destruct (Hlogs e) as (? & ? & ? & ? & ->); [by left|].
  cbn. apply IH. intros e' He'. apply Hlogs. by right.
Qed.

Lemma Asked_not_in_PolicySelection ctx labels policies q failed :
  Asked q failed ∉ (PolicySelection ctx labels policies).1.
Proof.
  intros Hin. by apply PolicySelection_range_logs in Hin as (? & ? & ? & ? & ?).
Qed.

(** [FullWithdrawal] makes the one call and returns, whatever the call
    answered. *)
Lemma FullWithdrawal_run ctx w :
  FullWithdrawal ctx w =
  (Returned tt,
   {| backend := (ConfigurePeers ctx None None (backend w)).1;
      trace := trace w ++
        [CalledConfigurePeers ctx None None
           (ConfigurePeers ctx None None (backend w)).2] |}).
Proof.
  unfold FullWithdrawal, call_ConfigurePeers, bind, ret.
  by destruct (ConfigurePeers ctx None None (backend w)).
Qed.

Ltac run_Reconcile :=
  unfold Reconcile, Reconcile_log, call_PolicySelection, ask, emit, emit_all,
    ret, bind, panic; cbn.

(** The attempt stops at a failed listing. *)
Lemma Reconcile_list_failed s ctx w e :
  PolicyLister_List s = Err e →
  Reconcile s ctx w =
  (Returned (Some (Errorf "failed to list CiliumBGPPeeringPolicies")),
   {| backend := backend w; trace := trace w ++ [Asked QList true] |}).
Proof. intros Hl. run_Reconcile. by rewrite Hl. Qed.

(** The attempt stops at [Labels()] failing. *)
Lemma Reconcile_labels_failed s ctx w policies e :
  PolicyLister_List s = Ok policies →
  NodeSpec_Labels s = Err e →
  Reconcile s ctx w =
  (Returned (Some (Wrapf "failed to retrieve labels for Node" e)),
   {| backend := backend w;
      trace := trace w ++
        [Asked QList false;
         Log "Controller.Reconcile" DebugLevel
           "Successfully listed CiliumBGPPeeringPolicies" None
           [("count", FCount (length policies))];
         Asked QLabels true] |}).
Proof.
  intros Hl Hn. run_Reconcile. rewrite Hl, Hn. cbn.
  by rewrite <-!app_assoc.
Qed.
(** A panic in policy selection is the attempt's. *)
Lemma Reconcile_selection_panicked s ctx w policies labels logs :
  PolicyLister_List s = Ok policies →
  NodeSpec_Labels s = Ok labels →
  PolicySelection ctx labels policies = (logs, Panicked) →
  Reconcile s ctx w =
  (Panicked,
   {| backend := backend w; trace := trace w ++ selecting policies logs |}).
Proof.
  intros Hl Hn Hsel. run_Reconcile. rewrite Hl, Hn. cbn. rewrite Hsel. cbn.
  unfold selecting. by rewrite <-!app_assoc.
Qed.

(** A selection error: logged, full withdrawal, the error returned. *)
Lemma Reconcile_selection_failed s ctx w policies labels logs chosen err :
  PolicyLister_List s = Ok policies →
  NodeSpec_Labels s = Ok labels →
  PolicySelection ctx labels policies = (logs, Returned (chosen, Some err)) →
  Reconcile s ctx w =
  (Returned (Some err),
   {| backend := (ConfigurePeers ctx None None (backend w)).1;
      trace := trace w ++ selecting policies logs ++
        [Log "Controller.Reconcile" ErrorLevel "Policy selection failed"
           (Some err) [];
         CalledConfigurePeers ctx None None
           (ConfigurePeers ctx None None (backend w)).2] |}).
Proof.
  intros Hl Hn Hsel. run_Reconcile. rewrite Hl, Hn. cbn. rewrite Hsel.
  destruct chosen; cbn;
    unfold FullWithdrawal, call_ConfigurePeers, bind, ret; cbn;
    destruct (ConfigurePeers ctx None None (backend w)); cbn;
    unfold selecting; by rewrite <-!app_assoc.
Qed.

(** No policy: full withdrawal, success. *)
Lemma Reconcile_no_policy s ctx w policies labels logs :
  PolicyLister_List s = Ok policies →
  NodeSpec_Labels s = Ok labels →
  PolicySelection ctx labels policies = (logs, Returned (None, None)) →
  Reconcile s ctx w =
  (Returned None,
   {| backend := (ConfigurePeers ctx None None (backend w)).1;
      trace := trace w ++ selecting policies logs ++
        [Log "Controller.Reconcile" DebugLevel
           "No BGP peering policy applies to this node, any existing BGP sessions will be removed."
           None [];
         CalledConfigurePeers ctx None None
           (ConfigurePeers ctx None None (backend w)).2] |}).
Proof.
  intros Hl Hn Hsel. run_Reconcile. rewrite Hl, Hn. cbn. rewrite Hsel. cbn.
  unfold FullWithdrawal, call_ConfigurePeers, bind, ret. cbn.
  destruct (ConfigurePeers ctx None None (backend w)). cbn.
  unfold selecting. by rewrite <-!app_assoc.
Qed.

(** The attempt stops at [Annotations()] failing. *)
Lemma Reconcile_annotations_failed s ctx w policies labels logs policy e :
  PolicyLister_List s = Ok policies →
  NodeSpec_Labels s = Ok labels →
  PolicySelection ctx labels policies = (logs, Returned (Some policy, None)) →
  NodeSpec_Annotations s = Err e →
  Reconcile s ctx w =
  (Returned (Some (Wrapf "failed to retrieve Node's annotations" e)),
   {| backend := backend w;
      trace := trace w ++ selecting policies logs ++
        [Asked QAnnotations true] |}).
Proof.
  intros Hl Hn Hsel Ha. run_Reconcile. rewrite Hl, Hn. cbn. rewrite Hsel. cbn.
  rewrite Ha. cbn. unfold selecting. by rewrite <-!app_assoc.
Qed.

(** The attempt stops at annotations that do not parse. *)
Lemma Reconcile_annotations_malformed s ctx w policies labels logs policy
    annotations e :
  PolicyLister_List s = Ok policies →
  NodeSpec_Labels s = Ok labels →
  PolicySelection ctx labels policies = (logs, Returned (Some policy, None)) →
  NodeSpec_Annotations s = Ok annotations →
  NewAnnotationMap annotations = Err e →
  Reconcile s ctx w =
  (Returned (Some (Wrapf "failed to parse annotations" e)),
   {| backend := backend w;
      trace := trace w ++ selecting policies logs ++
        [Asked QAnnotations false] |}).
Proof.
  intros Hl Hn Hsel Ha Hp. run_Reconcile. rewrite Hl, Hn. cbn.
  rewrite Hsel. cbn. rewrite Ha. cbn. rewrite Hp. cbn.
  unfold selecting. by rewrite <-!app_assoc.
Qed.

(** The attempt stops at [PodCIDRs()] failing. *)
Lemma Reconcile_podCIDRs_failed s ctx w policies labels logs policy
    annotations annoMap e :
  PolicyLister_List s = Ok policies →
  NodeSpec_Labels s = Ok labels →
  PolicySelection ctx labels policies = (logs, Returned (Some policy, None)) →
  NodeSpec_Annotations s = Ok annotations →
  NewAnnotationMap annotations = Ok annoMap →
  NodeSpec_PodCIDRs s = Err e →
  Reconcile s ctx w =
  (Returned (Some (Wrapf "failed to retrieve Node's pod CIDR ranges" e)),
   {| backend := backend w;
      trace := trace w ++ selecting policies logs ++
        [Asked QAnnotations false; Asked QPodCIDRs true] |}).
Proof.
  intros Hl Hn Hsel Ha Hp Hc. run_Reconcile. rewrite Hl, Hn. cbn.
  rewrite Hsel. cbn. rewrite Ha. cbn. rewrite Hp. cbn. rewrite Hc. cbn.
  unfold selecting. by rewrite <-!app_assoc.
Qed.

(** Everything was read: the backend is asked to configure the peers of
    the selected policy with the state just assembled. *)
Lemma Reconcile_configures s ctx w policies labels logs policy annotations
    annoMap podCIDRs :
  PolicyLister_List s = Ok policies →
  NodeSpec_Labels s = Ok labels →
  PolicySelection ctx labels policies = (logs, Returned (Some policy, None)) →
  NodeSpec_Annotations s = Ok annotations →
  NewAnnotationMap annotations = Ok annoMap →
  NodeSpec_PodCIDRs s = Ok podCIDRs →
  let state := {| PodCIDRs := podCIDRs; Annotations := annoMap;
                  IPv4 := GetIPv4 s; IPv6 := GetIPv6 s |} in
  let answer := ConfigurePeers ctx (Some policy) (Some state) (backend w) in
  Reconcile s ctx w =
  (Returned
     (Wrapf "failed to configure BGP peers, cannot apply BGP peering policy"
        <$> answer.2),
   {| backend := answer.1;
      trace := trace w ++ selecting policies logs ++
        [Asked QAnnotations false; Asked QPodCIDRs false;
         Log "Controller.Reconcile" DebugLevel
           "Asking configured BGPRouterManager to configure peering" None [];
         CalledConfigurePeers ctx (Some policy) (Some state) answer.2] |}).
Proof.
  intros Hl Hn Hsel Ha Hp Hc state answer. run_Reconcile. rewrite Hl, Hn. cbn.
  rewrite Hsel. cbn. rewrite Ha. cbn. rewrite Hp. cbn. rewrite Hc. cbn.
  unfold call_ConfigurePeers. cbn. fold state. subst answer.
  destruct (ConfigurePeers ctx (Some policy) (Some state) (backend w))
    as [b [err|]]; cbn; unfold selecting; by rewrite <-!app_assoc.
Qed.

Lemma selecting_quiet ctx labels policies logs out :
  PolicySelection ctx labels policies = (logs, out) →
  backend_calls (selecting policies logs) = [] ∧
  ∀ q, Asked q true ∉ selecting policies logs.
Proof.
  intros Hsel. replace logs with (PolicySelection ctx labels policies).1
    by (by rewrite Hsel).
  split.
  - unfold selecting. rewrite backend_calls_app, backend_calls_PolicySelection.
    reflexivity.
  - intros q [Hin|Hin]%elem_of_app.
    + repeat (apply elem_of_cons in Hin as [Hin|Hin]; [discriminate|]).
      by apply elem_of_nil in Hin.
    + by apply Asked_not_in_PolicySelection in Hin.
Qed.

Ltac along path :=
  unfold effects_of; rewrite path; cbn [fst snd trace backend];
  rewrite ?drop_app_length.

(** C4. A policy is selected and the node's annotations do not parse:
    the attempt returns the parse error, has made no call to
    [ConfigurePeers], and has left the backend as it was. *)
Theorem Reconcile_malformed_annotation s ctx w policies labels logs policy
    annotations e :
  PolicyLister_List s = Ok policies →
  NodeSpec_Labels s = Ok labels →
  PolicySelection ctx labels policies = (logs, Returned (Some policy, None)) →
  NodeSpec_Annotations s = Ok annotations →
  NewAnnotationMap annotations = Err e →
  (Reconcile s ctx w).1 =
    Returned (Some (Wrapf "failed to parse annotations" e)) ∧
  backend_calls (effects_of (Reconcile s ctx) w) = [] ∧
  backend (Reconcile s ctx w).2 = backend w.
Proof.
  intros Hl Hn Hsel Ha Hp.
  along (Reconcile_annotations_malformed s ctx w _ _ _ _ _ _ Hl Hn Hsel Ha Hp).
  destruct (selecting_quiet _ _ _ _ _ Hsel) as [Hquiet _].
  by rewrite backend_calls_app, Hquiet.
Qed.

(** C5. An attempt in which a read of the policy lister or of the node's
    labels, annotations or pod CIDRs came back with an error returns an
    error, has made no call to [ConfigurePeers] (neither with a policy nor
    a withdrawal), and has left the backend as it was. *)
Theorem Reconcile_retrieval_error s ctx w q :
  Asked q true ∈ effects_of (Reconcile s ctx) w →
  (∃ err, (Reconcile s ctx w).1 = Returned (Some err)) ∧
  backend_calls (effects_of (Reconcile s ctx) w) = [] ∧
  backend (Reconcile s ctx w).2 = backend w.
Proof.
  destruct (PolicyLister_List s) as [policies|e] eqn:Hl.
  2:{ along (Reconcile_list_failed s ctx w e Hl). eauto. }
  destruct (NodeSpec_Labels s) as [labels|e] eqn:Hn.
  2:{ along (Reconcile_labels_failed s ctx w policies e Hl Hn). eauto. }
  destruct (PolicySelection ctx labels policies) as [logs out] eqn:Hsel.
  destruct (selecting_quiet _ _ _ _ _ Hsel) as [Hquiet Hasked].
  assert (∀ tail : list Effect,
    (∀ f, f ∈ tail → f ≠ Asked q true) →
    Asked q true ∉ selecting policies logs ++ tail) as Habsurd.
  { intros tail Htail [Hin|Hin]%elem_of_app; [by apply (Hasked q)|].
    by apply (Htail _ Hin). }
  destruct out as [[chosen [err|]]|].
  - along (Reconcile_selection_failed s ctx w _ _ _ _ _ Hl Hn Hsel).
    intros Hin. exfalso. revert Hin. apply Habsurd.
    intros f Hf. repeat (apply elem_of_cons in Hf as [->|Hf]; [done|]).
    by apply elem_of_nil in Hf.
  - destruct chosen as [policy|].
    2:{ along (Reconcile_no_policy s ctx w _ _ _ Hl Hn Hsel).
        intros Hin. exfalso. revert Hin. apply Habsurd.
        intros f Hf. repeat (apply elem_of_cons in Hf as [->|Hf]; [done|]).
        by apply elem_of_nil in Hf. }
    destruct (NodeSpec_Annotations s) as [annotations|e] eqn:Ha.
    2:{ along (Reconcile_annotations_failed s ctx w _ _ _ _ e Hl Hn Hsel Ha).
        rewrite backend_calls_app, Hquiet. eauto. }
    destruct (NewAnnotationMap annotations) as [annoMap|e] eqn:Hp.
    2:{ along (Reconcile_annotations_malformed s ctx w _ _ _ _ _ e
                 Hl Hn Hsel Ha Hp).
        intros Hin. exfalso. revert Hin. apply Habsurd.
        intros f Hf. repeat (apply elem_of_cons in Hf as [->|Hf]; [done|]).
        by apply elem_of_nil in Hf. }
    destruct (NodeSpec_PodCIDRs s) as [podCIDRs|e] eqn:Hc.
    2:{ along (Reconcile_podCIDRs_failed s ctx w _ _ _ _ _ _ e
                 Hl Hn Hsel Ha Hp Hc).
        rewrite backend_calls_app, Hquiet. eauto. }
    along (Reconcile_configures s ctx w _ _ _ _ _ _ _ Hl Hn Hsel Ha Hp Hc).
    intros Hin. exfalso. revert Hin. apply Habsurd.
    intros f Hf. repeat (apply elem_of_cons in Hf as [->|Hf]; [done|]).
    by apply elem_of_nil in Hf.
  - along (Reconcile_selection_panicked s ctx w _ _ _ Hl Hn Hsel).
    intros Hin. by apply Hasked in Hin.
Qed.


Ltac by_paths s ctx w :=
  destruct (PolicyLister_List s) as [policies|e] eqn:Hl;
  [ destruct (NodeSpec_Labels s) as [labels|e] eqn:Hn;
    [ destruct (PolicySelection ctx labels policies) as [logs out] eqn:Hsel;
      pose proof (proj1 (selecting_quiet _ _ _ _ _ Hsel)) as Hquiet;
      destruct out as [[chosen [err|]]|];
      [ along (Reconcile_selection_failed s ctx w _ _ _ _ _ Hl Hn Hsel)
      | destruct chosen as [policy|];
        [ destruct (NodeSpec_Annotations s) as [annotations|e] eqn:Ha;
          [ destruct (NewAnnotationMap annotations) as [annoMap|e] eqn:Hp;
            [ destruct (NodeSpec_PodCIDRs s) as [podCIDRs|e] eqn:Hc;
              [ along (Reconcile_configures s ctx w _ _ _ _ _ _ _
                         Hl Hn Hsel Ha Hp Hc)
              | along (Reconcile_podCIDRs_failed s ctx w _ _ _ _ _ _ e
                         Hl Hn Hsel Ha Hp Hc) ]
            | along (Reconcile_annotations_malformed s ctx w _ _ _ _ _ e
                       Hl Hn Hsel Ha Hp) ]
          | along (Reconcile_annotations_failed s ctx w _ _ _ _ e
                     Hl Hn Hsel Ha) ]
        | along (Reconcile_no_policy s ctx w _ _ _ Hl Hn Hsel) ]
      | along (Reconcile_selection_panicked s ctx w _ _ _ Hl Hn Hsel) ];
      rewrite ?backend_calls_app, ?Hquiet
    | along (Reconcile_labels_failed s ctx w policies e Hl Hn) ]
  | along (Reconcile_list_failed s ctx w e Hl) ];
  cbn [backend_calls is_backend_call List.filter app].

Lemma attempts_selecting ctx labels policies logs out :
  PolicySelection ctx labels policies = (logs, out) →
  attempts (selecting policies logs) = 1.
Proof.
  intros Hsel. replace logs with (PolicySelection ctx labels policies).1
    by (by rewrite Hsel).
  unfold attempts, selecting. rewrite List.filter_app, length_app. cbn.
  pose proof (PolicySelection_range_logs labels policies None) as Hlogs.
  unfold PolicySelection.
  induction (PolicySelection_range labels policies None).1 as [|e l IH];
    [done|].
  destruct (Hlogs e) as (? & ? & ? & ? & ->); [by left|].
  cbn. apply IH. intros e' He'. apply Hlogs. by right.
Qed.

(** Every attempt reads the policy lister exactly once. *)
Lemma Reconcile_attempts s ctx w :
  attempts (effects_of (Reconcile s ctx) w) = 1.
Proof.
  by_paths s ctx w; try reflexivity;
    try (by apply (attempts_selecting _ _ _ _ _ Hsel));
    unfold attempts; rewrite List.filter_app, length_app;
    fold (attempts (selecting policies logs));
    rewrite (attempts_selecting _ _ _ _ _ Hsel); reflexivity.
Qed.

(** The trace only grows. *)
Lemma Reconcile_trace s ctx w :
  trace (Reconcile s ctx w).2 = trace w ++ effects_of (Reconcile s ctx) w.
Proof. by by_paths s ctx w. Qed.

(** X5. One reconciliation attempt makes at most one call to the backend:
    none, and then the backend is left as it was; or the full withdrawal;
    or [ConfigurePeers] with a policy and a state. *)
Theorem Reconcile_one_backend_call s ctx w :
  (backend_calls (effects_of (Reconcile s ctx) w) = [] ∧
   backend (Reconcile s ctx w).2 = backend w) ∨
  (∃ r, backend_calls (effects_of (Reconcile s ctx) w) =
        [CalledConfigurePeers ctx None None r]) ∨
  (∃ policy state r, backend_calls (effects_of (Reconcile s ctx) w) =
        [CalledConfigurePeers ctx (Some policy) (Some state) r]).
Proof. by_paths s ctx w; eauto 10. Qed.

(** X6. When the policies and the labels are read, one policy is
    selected, the annotations are read and parse, and the pod CIDRs are
    read, the attempt makes exactly one call to the backend:
    [ConfigurePeers] with the selected policy and a state made of the pod
    CIDRs, the parsed annotations and the node's two addresses. The attempt
    returns nil when the backend does, and the backend's error wrapped
    otherwise. *)
Theorem Reconcile_applies_policy s ctx w policies labels logs policy
    annotations annoMap podCIDRs :
  PolicyLister_List s = Ok policies →
  NodeSpec_Labels s = Ok labels →
  PolicySelection ctx labels policies = (logs, Returned (Some policy, None)) →
  NodeSpec_Annotations s = Ok annotations →
  NewAnnotationMap annotations = Ok annoMap →
  NodeSpec_PodCIDRs s = Ok podCIDRs →
  let state := {| PodCIDRs := podCIDRs; Annotations := annoMap;
                  IPv4 := GetIPv4 s; IPv6 := GetIPv6 s |} in
  let answer := ConfigurePeers ctx (Some policy) (Some state) (backend w) in
  backend_calls (effects_of (Reconcile s ctx) w) =
    [CalledConfigurePeers ctx (Some policy) (Some state) answer.2] ∧
  (Reconcile s ctx w).1 =
    Returned match answer.2 with
             | Some err =>
                 Some (Wrapf
                   "failed to configure BGP peers, cannot apply BGP peering policy"
                   err)
             | None => None
             end ∧
  backend (Reconcile s ctx w).2 = answer.1.
Proof.
  intros Hl Hn Hsel Ha Hp Hc state answer.
  along (Reconcile_configures s ctx w _ _ _ _ _ _ _ Hl Hn Hsel Ha Hp Hc).
  rewrite backend_calls_app, (proj1 (selecting_quiet _ _ _ _ _ Hsel)).
  done.
Qed.

(** X7. An attempt makes the full withdrawal exactly when the policies and
    the labels were read and policy selection returned without a policy
    (none matches, or it failed). *)
Theorem Reconcile_withdraws_iff s ctx w :
  (∃ r, backend_calls (effects_of (Reconcile s ctx) w) =
        [CalledConfigurePeers ctx None None r]) ↔
  ∃ policies labels err,
    PolicyLister_List s = Ok policies ∧
    NodeSpec_Labels s = Ok labels ∧
    (PolicySelection ctx labels policies).2 = Returned (None, err).
Proof.
  by_paths s ctx w;
    (split;
     [ intros [r Hr]; try discriminate Hr
     | intros (ps & ls & er & ? & ? & Hr); simplify_eq;
       rewrite ?Hsel in Hr; simplify_eq/=; eauto ]).
  - assert ((PolicySelection_range labels policies None).2 =
            Returned (chosen, Some err)) as Herr
      by (by unfold PolicySelection in Hsel; rewrite Hsel).
    apply PolicySelection_range_error in Herr as [-> _].
    exists policies, labels, (Some err). by rewrite Hsel.
  - exists policies, labels, None. by rewrite Hsel.
Qed.

(** A panic of an attempt is a panic of policy selection. *)
Lemma Reconcile_panicked s ctx w :
  (Reconcile s ctx w).1 = Panicked →
  ∃ policies labels,
    PolicyLister_List s = Ok policies ∧
    NodeSpec_Labels s = Ok labels ∧
    (PolicySelection ctx labels policies).2 = Panicked.
Proof.
  by_paths s ctx w; intros Hr; try discriminate Hr.
  exists policies, labels. by rewrite Hsel.
Qed.

(** X8. An attempt panics exactly when the policies and the labels were
    read and policy selection panicked. *)
Theorem Reconcile_panics_iff s ctx w :
  (Reconcile s ctx w).1 = Panicked ↔
  ∃ policies labels,
    PolicyLister_List s = Ok policies ∧
    NodeSpec_Labels s = Ok labels ∧
    (PolicySelection ctx labels policies).2 = Panicked.
Proof.
  by_paths s ctx w;
    (split;
     [ intros Hr; try discriminate Hr
     | intros (ps & ls & ? & ? & Hr); simplify_eq;
       rewrite ?Hsel in Hr; simplify_eq/=; eauto ]).
  exists policies, labels. by rewrite Hsel.
Qed.

(** X9. An attempt that returns nil has made exactly one call to the
    backend: the full withdrawal (whatever the backend answered), or
    [ConfigurePeers] with a policy and a state that the backend
    accepted. *)
Theorem Reconcile_nil_after_one_call s ctx w :
  (Reconcile s ctx w).1 = Returned None →
  (∃ r, backend_calls (effects_of (Reconcile s ctx) w) =
        [CalledConfigurePeers ctx None None r]) ∨
  (∃ policy state, backend_calls (effects_of (Reconcile s ctx) w) =
        [CalledConfigurePeers ctx (Some policy) (Some state) None]).
Proof.
  by_paths s ctx w; intros Hr; try discriminate Hr; eauto.
  right. destruct (ConfigurePeers _ _ _ _) as [b [e|]]; [done|]. eauto.
Qed.

End Reconciliation.

(** ** Run *)

Section ControlLoop.

Context {selectors : SlimSelectors} {parser : AnnotationParser}
  {manager : BGPRouterManager}.

Implicit Types (l : Loop) (ctx : Context) (snap : Snapshot) (w : World).

(** The shutdown case: one withdrawal under the fresh context, one log
    line, return. *)
Lemma Run_case_done ctx snap w :
  Run_case ctx CaseDone snap w =
  (Returned true,
   {| backend := (ConfigurePeers killCTX None None (backend w)).1;
      trace := trace w ++
        [CalledConfigurePeers killCTX None None
           (ConfigurePeers killCTX None None (backend w)).2;
         Log "Controller.Run" InfoLevel
           "Cilium BGP Control Plane Controller shut down" None []] |}).
Proof.
  unfold Run_case, Run_log, emit, bind, ret. rewrite FullWithdrawal_run. cbn.
  by rewrite <-app_assoc.
Qed.

(** A loop that has returned does nothing more, whatever else happens. *)
Lemma Run_step_exited ctx l st :
  status l = Exited →
  status (Run_step ctx l st) = Exited ∧ world (Run_step ctx l st) = world l.
Proof. intros Hl. destruct st; cbn; by rewrite ?Hl. Qed.

Lemma Run_steps_exited ctx l steps :
  status l = Exited →
  status (foldl (Run_step ctx) l steps) = Exited ∧
  world (foldl (Run_step ctx) l steps) = world l.
Proof.
  revert l. induction steps as [|st steps IH]; intros l Hl; [done|].
  cbn. destruct (Run_step_exited ctx l st Hl) as [Hs Hw].
  destruct (IH _ Hs) as [Hs' Hw']. by rewrite Hs', Hw'.
Qed.

Lemma attempts_app (t1 t2 : list Effect) :
  attempts (t1 ++ t2) = attempts t1 + attempts t2.
Proof. unfold attempts. by rewrite List.filter_app, length_app. Qed.

(** C8. In every run of the loop, once the [select] takes the
    cancellation case the loop makes exactly one more call to the backend,
    the full withdrawal under a fresh context with a one-minute timeout,
    and returns; whatever happens afterwards, it starts no reconciliation
    attempt and does nothing else. *)
Theorem Run_shutdown ctx l before prefer snap after s' :
  status (Run ctx l before) = Running →
  select (cancelled (Run ctx l before)) (signaler (Run ctx l before)) prefer
    = Some (CaseDone, s') →
  let seen := world (Run ctx l before) in
  let final := Run ctx l (before ++ Wake prefer snap :: after) in
  status final = Exited ∧
  world final =
    {| backend := (ConfigurePeers killCTX None None (backend seen)).1;
       trace := trace seen ++
         [CalledConfigurePeers killCTX None None
            (ConfigurePeers killCTX None None (backend seen)).2;
          Log "Controller.Run" InfoLevel
            "Cilium BGP Control Plane Controller shut down" None []] |} ∧
  killCTX = WithTimeout Background 60000000000 ∧
  length (backend_calls (trace (world final))) =
    S (length (backend_calls (trace seen))) ∧
  withdrawals_under killCTX (trace (world final)) =
    S (withdrawals_under killCTX (trace seen)) ∧
  attempts (trace (world final)) = attempts (trace seen).
Proof.
  intros Hrun Hsel seen final.
  assert (final =
    foldl (Run_step ctx) (Run_step ctx (Run ctx l before) (Wake prefer snap))
      after) as ->.
  { unfold final, Run. by rewrite foldl_app. }
  assert (status (Run_step ctx (Run ctx l before) (Wake prefer snap)) = Exited ∧
          world (Run_step ctx (Run ctx l before) (Wake prefer snap)) =
          {| backend := (ConfigurePeers killCTX None None (backend seen)).1;
             trace := trace seen ++
               [CalledConfigurePeers killCTX None None
                  (ConfigurePeers killCTX None None (backend seen)).2;
                Log "Controller.Run" InfoLevel
                  "Cilium BGP Control Plane Controller shut down" None []] |})
    as [Hexit Hworld].
  { cbn [Run_step]. rewrite Hrun, Hsel, Run_case_done. by cbn. }
  destruct (Run_steps_exited ctx _ after Hexit) as [Hs Hw].
  rewrite Hs, Hw, Hworld. cbn [trace].
  repeat split.
  - unfold backend_calls. rewrite List.filter_app, length_app. cbn. lia.
  - unfold withdrawals_under. rewrite List.filter_app, length_app. cbn.
    rewrite bool_decide_eq_true_2 by done. cbn. lia.
  - rewrite attempts_app. cbn. lia.
Qed.

(** C6. The loop is woken by a signal and policy selection fails in the
    attempt: [Reconcile] logs the failure, makes the full withdrawal
    ([ConfigurePeers] with no policy and no state) and returns the error;
    [Run] logs that error and stays in its loop. *)
Theorem Run_continues_after_selection_error ctx l prefer snap s' policies
    labels logs chosen err :
  status l = Running →
  select (cancelled l) (signaler l) prefer = Some (CaseSig, s') →
  PolicyLister_List snap = Ok policies →
  NodeSpec_Labels snap = Ok labels →
  PolicySelection ctx labels policies = (logs, Returned (chosen, Some err)) →
  (∀ w, (Reconcile snap ctx w).1 = Returned (Some err)) ∧
  Run_step ctx l (Wake prefer snap) =
  {| signaler := s'; cancelled := cancelled l; status := Running;
     world :=
       {| backend := (ConfigurePeers ctx None None (backend (world l))).1;
          trace := trace (world l) ++
            [Log "Controller.Run" InfoLevel
               "Cilium BGP Control Plane Controller woken for reconciliation"
               None []] ++
            selecting policies logs ++
            [Log "Controller.Reconcile" ErrorLevel "Policy selection failed"
               (Some err) [];
             CalledConfigurePeers ctx None None
               (ConfigurePeers ctx None None (backend (world l))).2;
             Log "Controller.Run" ErrorLevel
               "Encountered error during reconciliation" (Some err) []] |} |}.
Proof.
  intros Hrun Hsel Hl Hn Hps. split.
  - intros w. by rewrite (Reconcile_selection_failed snap ctx w _ _ _ _ _ Hl Hn Hps).
  - cbn [Run_step]. rewrite Hrun, Hsel.
    unfold Run_case, Run_log, emit, bind, ret. cbn [backend trace].
    rewrite (Reconcile_selection_failed snap ctx _ _ _ _ _ _ Hl Hn Hps).
    cbn. f_equal. f_equal. unfold selecting. rewrite <-!app_assoc. cbn.
    by rewrite <-!app_assoc.
Qed.

(** Watch callbacks only touch the Signaler. *)
Lemma Run_notify_burst ctx l (k : nat) :
  foldl (Run_step ctx) l (replicate k Notify) =
  {| signaler := sig_run (replicate k OpEvent) (signaler l);
     cancelled := cancelled l; world := world l; status := status l |}.
Proof.
  revert l. induction k as [|k IH]; intros l; [by destruct l|].
  cbn [replicate foldl]. by rewrite IH.
Qed.

(** The signal case runs one attempt and does not return. *)
Lemma Run_case_sig ctx snap w :
  attempts (trace (Run_case ctx CaseSig snap w).2) = S (attempts (trace w)) ∧
  (Run_case ctx CaseSig snap w).1 ≠ Returned true ∧
  ((Run_case ctx CaseSig snap w).1 = Panicked →
   ∃ w', (Reconcile snap ctx w').1 = Panicked).
Proof.
  unfold Run_case, Run_log, emit, bind, ret. cbn [backend trace].
  set (w1 := {| backend := backend w; trace := trace w ++ _ |}).
  pose proof (Reconcile_trace snap ctx w1) as Htrace.
  pose proof (Reconcile_attempts snap ctx w1) as Hone.
  set (eff := effects_of (Reconcile snap ctx) w1) in *.
  assert (attempts (trace w1) = attempts (trace w)) as Hw1.
  { unfold w1. cbn [trace]. rewrite attempts_app. cbn. lia. }
  destruct (Reconcile snap ctx w1) as [[[e|]|] w2] eqn:HR;
    cbn [fst snd trace backend] in *;
    rewrite ?attempts_app, Htrace, attempts_app, Hone, Hw1;
    (split; [cbn; lia|split; [done|]]); try done.
  intros _. exists w1. by rewrite HR.
Qed.

(** A pending signal and no cancellation: the wake-up takes the signal,
    runs one attempt and leaves the channel empty. *)
Lemma Run_step_signalled ctx l prefer snap :
  status l = Running →
  cancelled l = false →
  signaler l = {| Sig := Chan.make 1 [tt] |} →
  let woken := Run_step ctx l (Wake prefer snap) in
  attempts (trace (world woken)) = S (attempts (trace (world l))) ∧
  signaler woken = {| Sig := Chan.make 1 [] |} ∧
  cancelled woken = false ∧
  status woken ≠ Exited.
Proof.
  intros Hrun Hcan Hsig. cbn [Run_step]. rewrite Hrun, Hcan, Hsig.
  change (select false {| Sig := Chan.make 1 [tt] |} prefer)
    with (Some (CaseSig, {| Sig := Chan.make 1 [] |})).
  destruct (Run_case_sig ctx snap (world l)) as (Hatt & Hret & _).
  destruct (Run_case ctx CaseSig snap (world l)) as [[[|]|] w'];
    cbn in *; done.
Qed.

(** X11. Coalescing in the loop: while the loop is waiting, a burst of
    one or more watch callbacks leaves one token and touches nothing else;
    the next wake-up runs exactly one reconciliation attempt, not one per
    callback, and empties the channel; a further wake-up without a new
    callback does nothing. *)
Theorem Run_coalesces_burst ctx l (n : nat) prefer snap :
  status l = Running →
  cancelled l = false →
  sig_wf (signaler l) →
  let burst := foldl (Run_step ctx) l (replicate (S n) Notify) in
  let woken := Run_step ctx burst (Wake prefer snap) in
  pending (signaler burst) = 1 ∧
  world burst = world l ∧
  attempts (trace (world woken)) = S (attempts (trace (world l))) ∧
  pending (signaler woken) = 0 ∧
  ∀ prefer' snap', Run_step ctx woken (Wake prefer' snap') = woken.
Proof.
  intros Hrun Hcan Hwf burst woken.
  assert (burst =
    {| signaler := {| Sig := Chan.make 1 [tt] |}; cancelled := false;
       world := world l; status := Running |}) as Hburst.
  { unfold burst. by rewrite Run_notify_burst, sig_burst, Hrun, Hcan. }
  destruct (Run_step_signalled ctx burst prefer snap)
    as (Hatt & Hsig & Hcan' & Hexit); [by rewrite Hburst..|].
  fold woken in Hatt, Hsig, Hcan', Hexit.
  rewrite Hburst in Hatt. cbn [world] in Hatt.
  repeat split; [by rewrite Hburst|by rewrite Hburst|done|by rewrite Hsig|].
  intros prefer' snap'. cbn [Run_step]. rewrite Hsig, Hcan'.
  by destruct (status woken).
Qed.

(** X12. [Run] injects a signal of its own before it enters the loop: when
    the context is not cancelled, the first wake-up runs a reconciliation
    attempt even if no watch callback has fired. *)
Theorem Run_first_attempt ctx l prefer snap :
  cancelled l = false →
  sig_wf (signaler l) →
  attempts (trace (world (Run ctx l [Wake prefer snap]))) =
  S (attempts (trace (world l))).
Proof.
  intros Hcan Hwf. unfold Run. cbn [foldl].
  destruct (Run_step_signalled ctx (Run_enter l) prefer snap)
    as (Hatt & _).
  - done.
  - done.
  - cbn. by destruct (sig_wf_shape _ Hwf) as [-> | ->].
  - rewrite Hatt. unfold Run_enter, Run_log, emit, bind, ret.
    cbn [world trace backend]. rewrite !attempts_app. cbn. lia.
Qed.

Lemma Run_step_exit_cancelled ctx l st :
  (status l = Exited → cancelled l = true) →
  status (Run_step ctx l st) = Exited → cancelled (Run_step ctx l st) = true.
Proof.
  intros Hinv. destruct st as [| |prefer snap]; cbn; [done|done|].
  destruct (status l) eqn:Hs;
    [|intros _; by apply Hinv|intros ?; congruence].
  destruct (cancelled l) eqn:Hc.
  - destruct (select true (signaler l) prefer) as [[b s']|]; [|by rewrite Hs].
    by destruct (Run_case ctx b snap (world l)) as [[[|]|] w'].
  - unfold select. destruct (Drain (signaler l)) as [s'|]; [|by rewrite Hs].
    destruct (Run_case_sig ctx snap (world l)) as (_ & Hret & _).
    by destruct (Run_case ctx CaseSig snap (world l)) as [[[|]|] w'].
Qed.

Lemma Run_steps_cancelled ctx l steps :
  cancelled (foldl (Run_step ctx) l steps) = true →
  cancelled l = true ∨ Cancel ∈ steps.
Proof.
  revert l. induction steps as [|st steps IH]; intros l; [by left|].
  cbn [foldl]. intros [Hc|Hin]%IH; [|right; by right].
  destruct st as [| |prefer snap]; cbn in Hc; [by left|right; by left|].
  left. destruct (status l); [|done..].
  destruct (select (cancelled l) (signaler l) prefer) as [[b s']|]; [|done].
  by destruct (Run_case ctx b snap (world l)) as [out w'].
Qed.

(** X13. The loop returns only on cancellation: in every run that has
    returned, the loop's context was cancelled, at the call of [Run] or by
    a step of the schedule. *)
Theorem Run_exits_only_on_cancellation ctx l schedule :
  status (Run ctx l schedule) = Exited →
  cancelled l = true ∨ Cancel ∈ schedule.
Proof.
  intros Hexit.
  assert (∀ steps l0, (status l0 = Exited → cancelled l0 = true) →
    status (foldl (Run_step ctx) l0 steps) = Exited →
    cancelled (foldl (Run_step ctx) l0 steps) = true) as Hinv.
  { induction steps as [|st steps IH]; intros l0 Hl0; [done|].
    cbn [foldl]. apply IH. by apply Run_step_exit_cancelled. }
  apply (Hinv schedule (Run_enter l)) in Hexit; [|done].
  by apply Run_steps_cancelled in Hexit.
Qed.

(** X14. No error stops the loop: when the node selector of every listed
    policy converts at every wake-up, the loop never crashes, whatever the
    reads, the annotation parser and the backend answer. *)
Theorem Run_survives_errors ctx l schedule :
  schedule_converts schedule →
  status (Run ctx l schedule) ≠ Crashed.
Proof.
  unfold Run. assert (status (Run_enter l) ≠ Crashed) as Hstart by done.
  revert Hstart. generalize (Run_enter l). clear l.
  induction schedule as [|st steps IH]; intros l Hl Hconv; [done|].
  apply Forall_cons in Hconv as [Hst Hsteps].
  cbn [foldl]. apply IH; [|done].
  destruct st as [| |prefer snap]; cbn; [done|done|].
  destruct (status l) eqn:Hs; [|by rewrite Hs|done].
  destruct (select (cancelled l) (signaler l) prefer) as [[b s']|];
    [|by rewrite Hs].
  destruct b.
  - by rewrite Run_case_done.
  - destruct (Run_case_sig ctx snap (world l)) as (_ & _ & Hpanic).
    destruct (Run_case ctx CaseSig snap (world l)) as [[[|]|] w'];
      cbn; [done|done|].
    destruct (Hpanic eq_refl) as [w0 Hw0].
    apply Reconcile_panicked in Hw0
      as (policies & labels & Hpol & _ & Hsel).
    unfold selectors_convert in Hst. rewrite Hpol in Hst.
    by rewrite PolicySelection_decided in Hsel.
Qed.

End ControlLoop.

(** ** NewController *)

(** C9, as the code has it. With the control plane disabled the
    constructor returns no controller and no error and leaves the lifecycle
    as it was. With it enabled, the IPAM mode alone decides: the
    cluster-pool modes give the CiliumNode variant and kubernetes the Node
    variant, the controller is appended to the lifecycle; any other mode
    gives an error, no controller and no hook. *)
Theorem NewController_by_IPAM_mode {ipam : IPAMOption}
    (params : ControllerParams) :
  NewController params =
  if BGPControlPlaneEnabled (Config params) then
    match variant_of (IPAM (Config params)) with
    | Some spec =>
        let c := {| NodeSpec := Some spec; ControllerSig := NewSignaler |} in
        ((Some c, None), Lifecycle params ++ [c])
    | None =>
        ((None,
          Some (Errorf
            "failed to determine a compatible IPAM mode, cannot initialize BGP control plane")),
         Lifecycle params)
    end
  else ((None, None), Lifecycle params).
Proof.
  unfold NewController, variant_of.
  destruct (BGPControlPlaneEnabled (Config params)); cbn [negb]; [|done].
  destruct (String.eqb (IPAM (Config params)) IPAMClusterPoolV2
            || String.eqb (IPAM (Config params)) IPAMClusterPool); [done|].
  by destruct (String.eqb (IPAM (Config params)) IPAMKubernetes).
Qed.

(** ** The definitions at work on the small cluster *)

Import Cluster.

(** C9, as stated, fails: the control plane is enabled, the IPAM mode is
    "eni", and the constructor returns no controller, so no variant is
    chosen. *)
Lemma NewController_enabled_without_variant :
  ¬ (BGPControlPlaneEnabled (Config eni) = true →
     ∃ c spec, (NewController eni).1 = (Some c, None) ∧ NodeSpec c = Some spec).
Proof.
  intros Hclaim. destruct (Hclaim eq_refl) as (c & spec & Hc & _).
  vm_compute in Hc. discriminate.
Qed.

(** C1, at the failing input. Among [edge_a; broken] exactly one policy
    matches the node's labels, and among [broken] none does; in both cases
    [PolicySelection] panics instead of returning: the loop logs the failed
    conversion of [broken] and goes on to call a method of the nil
    selector. *)
Theorem PolicySelection_unique_match_panics :
  matching edge [edge_a; broken] = [edge_a] ∧
  (PolicySelection Background edge [edge_a; broken]).2 = Panicked ∧
  matching edge [broken] = [] ∧
  (PolicySelection Background edge [broken]).2 = Panicked.
Proof. by vm_compute. Qed.

(** C2, at the failing input. The same three candidates in two orders:
    with the two matching ones first the outcome is the ambiguity error,
    with the unparsable one first it is a panic. *)
Theorem PolicySelection_order_matters :
  [edge_a; edge_b; broken] ≡ₚ [broken; edge_a; edge_b] ∧
  (PolicySelection Background edge [edge_a; edge_b; broken]).2 =
    Returned (None, Some ErrMultiplePolicies) ∧
  (PolicySelection Background edge [broken; edge_a; edge_b]).2 = Panicked.
Proof.
  split; [|by vm_compute].
  change ([edge_a; edge_b] ++ [broken] ≡ₚ [broken] ++ [edge_a; edge_b]).
  apply Permutation_app_comm.
Qed.

(** The first candidate's selector does not convert and the second does
    not match: the remaining candidates would decide "no policy", and
    [PolicySelection] panics after the one log line. *)
Lemma PolicySelection_failed_conversion_panics_witness :
  (PolicySelection Background edge [core]).2 = Returned (None, None) ∧
  ∃ logs,
    PolicySelection Background edge ([] ++ broken :: [core]) =
    (logs ++
     [conversion_failed (ExternalError "not a valid pod selector operator")],
     Panicked).
Proof.
  split; [by vm_compute|].
  apply (PolicySelection_failed_conversion_panics Background edge [] broken
           [core] (ExternalError "not a valid pod selector operator")).
  - constructor.
  - cbn. lia.
  - reflexivity.
Defined.

(** [edge_a] is selected and the annotation of the virtual router is
    empty: the attempt fails on the parse and the backend has seen
    nothing. *)
Lemma Reconcile_malformed_annotation_witness :
  (Reconcile unparsed (CallerCtx 0) world0).1 =
    Returned (Some (Wrapf "failed to parse annotations"
                      (ExternalError "malformed annotation"))) ∧
  backend_calls (effects_of (Reconcile unparsed (CallerCtx 0)) world0) = [] ∧
  backend (Reconcile unparsed (CallerCtx 0) world0).2 = backend world0.
Proof.
  apply (Reconcile_malformed_annotation unparsed (CallerCtx 0) world0
           [edge_a] edge
           (PolicySelection (CallerCtx 0) edge [edge_a]).1 edge_a malformed
           (ExternalError "malformed annotation")).
  - reflexivity.
  - reflexivity.
  - vm_compute. reflexivity.
  - reflexivity.
  - vm_compute. reflexivity.
Defined.

(** The pod CIDRs cannot be read: the attempt returns an error and the
    backend has seen nothing. *)
Lemma Reconcile_retrieval_error_witness :
  (∃ err, (Reconcile rangeless (CallerCtx 0) world0).1 = Returned (Some err)) ∧
  backend_calls (effects_of (Reconcile rangeless (CallerCtx 0)) world0) = [] ∧
  backend (Reconcile rangeless (CallerCtx 0) world0).2 = backend world0.
Proof.
  apply (Reconcile_retrieval_error rangeless (CallerCtx 0) world0 QPodCIDRs).
  apply (list_elem_of_lookup_2 _ 5). vm_compute. reflexivity.
Defined.


(** The loop is woken with two policies selecting the node: it is still
    running afterwards. *)
Lemma Run_continues_after_selection_error_witness :
  status (Run_step (CallerCtx 0) (Run_enter entry) (Wake CaseSig ambiguous))
    = Running.
Proof.
  destruct (Run_continues_after_selection_error (CallerCtx 0)
              (Run_enter entry) CaseSig ambiguous NewSignaler
              [edge_a; edge_b] edge
              (PolicySelection (CallerCtx 0) edge [edge_a; edge_b]).1
              None ErrMultiplePolicies) as [_ ->].
  - reflexivity.
  - vm_compute. reflexivity.
  - reflexivity.
  - reflexivity.
  - vm_compute. reflexivity.
  - reflexivity.
Defined.

(** The context is cancelled while a signal is pending and the [select]
    takes the cancellation: one withdrawal, and the later signal and
    wake-up change nothing. *)
Lemma Run_shutdown_witness :
  status (Run (CallerCtx 0) entry
            ([Cancel] ++ Wake CaseDone unmatched ::
             [Notify; Wake CaseSig unmatched])) = Exited ∧
  attempts (trace (world (Run (CallerCtx 0) entry
            ([Cancel] ++ Wake CaseDone unmatched ::
             [Notify; Wake CaseSig unmatched])))) = 0.
Proof.
  destruct (Run_shutdown (CallerCtx 0) entry [Cancel] CaseDone unmatched
              [Notify; Wake CaseSig unmatched]
              (signaler (Run (CallerCtx 0) entry [Cancel])))
    as (Hstatus & _ & _ & _ & _ & Hattempts).
  - reflexivity.
  - vm_compute. reflexivity.
  - split; [exact Hstatus|]. rewrite Hattempts. vm_compute. reflexivity.
Defined.

(** Among [edge_a] and [core] only [edge_a] selects the node: it is
    returned. *)
Lemma PolicySelection_by_count_witness :
  (PolicySelection Background edge [edge_a; core]).2 =
  Returned (Some edge_a, None).
Proof.
  rewrite (PolicySelection_by_count Background edge [edge_a; core]).
  - reflexivity.
  - repeat (constructor; [by eexists|]). constructor.
Defined.

(** The same two candidates in both orders. *)
Lemma PolicySelection_order_irrelevant_witness :
  (PolicySelection Background edge [edge_a; core]).2 =
  (PolicySelection Background edge [core; edge_a]).2.
Proof.
  apply (PolicySelection_order_irrelevant Background edge
           [edge_a; core] [core; edge_a]).
  - apply perm_swap.
  - repeat (constructor; [by eexists|]). constructor.
Defined.

(** The ambiguity is found before the unparsable candidate is reached. *)
Lemma PolicySelection_returned_witness :
  ErrMultiplePolicies = ErrMultiplePolicies ∧
  2 ≤ length (matching edge [edge_a; edge_b; broken]).
Proof.
  apply (PolicySelection_returned Background edge [edge_a; edge_b; broken]
           None (Some ErrMultiplePolicies)).
  vm_compute. reflexivity.
Defined.

(** [edge_a] is applied with the node's pod CIDR, no annotation and its
    addresses; the backend's refusal comes back wrapped. *)
Lemma Reconcile_applies_policy_witness :
  backend_calls (effects_of (Reconcile applied (CallerCtx 0)) world0) =
    [CalledConfigurePeers (CallerCtx 0) (Some edge_a)
       (Some {| PodCIDRs := ["10.0.1.0/24"]; Annotations := ∅;
                IPv4 := [Byte.xc0; Byte.x00; Byte.x02; Byte.x05];
                IPv6 := [] |})
       (Some (ExternalError "backend down"))] ∧
  (Reconcile applied (CallerCtx 0) world0).1 =
    Returned (Some (Wrapf
      "failed to configure BGP peers, cannot apply BGP peering policy"
      (ExternalError "backend down"))).
Proof.
  destruct (Reconcile_applies_policy applied (CallerCtx 0) world0
              [edge_a] edge
              (PolicySelection (CallerCtx 0) edge [edge_a]).1 edge_a
              ∅ ∅ ["10.0.1.0/24"]) as (Hcalls & Hresult & _).
  - reflexivity.
  - reflexivity.
  - vm_compute. reflexivity.
  - reflexivity.
  - vm_compute. reflexivity.
  - reflexivity.
  - split; [exact Hcalls|exact Hresult].
Defined.

(** No policy selects the node: the attempt returns nil after its one
    call. *)
Lemma Reconcile_nil_after_one_call_witness :
  (∃ r, backend_calls (effects_of (Reconcile unmatched (CallerCtx 0)) world0) =
        [CalledConfigurePeers (CallerCtx 0) None None r]) ∨
  (∃ policy state,
     backend_calls (effects_of (Reconcile unmatched (CallerCtx 0)) world0) =
     [CalledConfigurePeers (CallerCtx 0) (Some policy) (Some state) None]).
Proof.
  apply (Reconcile_nil_after_one_call unmatched (CallerCtx 0) world0).
  vm_compute. reflexivity.
Defined.

(** Three callbacks, one attempt. *)
Lemma Run_coalesces_burst_witness :
  attempts (trace (world
    (Run_step (CallerCtx 0)
       (foldl (Run_step (CallerCtx 0)) entry (replicate 3 Notify))
       (Wake CaseSig unmatched)))) = 1.
Proof.
  destruct (Run_coalesces_burst (CallerCtx 0) entry 2 CaseSig unmatched)
    as (_ & _ & Hattempts & _).
  - reflexivity.
  - reflexivity.
  - split; [reflexivity|cbn; lia].
  - exact Hattempts.
Defined.

(** No callback has fired, and the first wake-up reconciles. *)
Lemma Run_first_attempt_witness :
  attempts (trace (world (Run (CallerCtx 0) entry [Wake CaseSig unmatched])))
  = 1.
Proof.
  apply (Run_first_attempt (CallerCtx 0) entry CaseSig unmatched).
  - reflexivity.
  - split; [reflexivity|cbn; lia].
Defined.

(** The loop has returned, and the schedule holds the cancellation. *)
Lemma Run_exits_only_on_cancellation_witness :
  cancelled entry = true ∨ Cancel ∈ [Cancel; Wake CaseDone unmatched].
Proof.
  apply (Run_exits_only_on_cancellation (CallerCtx 0) entry
           [Cancel; Wake CaseDone unmatched]).
  vm_compute. reflexivity.
Defined.

(** An ambiguity, then annotations that do not parse, then unreadable pod
    CIDRs: the loop is not crashed. *)
Lemma Run_survives_errors_witness :
  status (Run (CallerCtx 0) entry
            [Wake CaseSig ambiguous; Notify; Wake CaseSig unparsed;
             Notify; Wake CaseSig rangeless]) ≠ Crashed.
Proof.
  apply (Run_survives_errors (CallerCtx 0) entry).
  repeat (constructor;
          [first [exact I
                 | unfold selectors_convert; cbn;
                   repeat (constructor; [by eexists|]); constructor]|]).
  constructor.
Defined.
